(** * Blend optimizer of the slagging predictor: model and properties

    A shallow embedding of the blend-optimisation code of [app.js]: the AFT
    regression [calculateAFT], the sanitising of the percentage bounds, the
    two combination enumerators (the pruned one of the current [/optimize]
    handler and the cross-product one of the earlier server), the scoring and
    selection of the three distinguished blends, and the current-mix
    projection.

    Numbers.  A JavaScript number is modelled by [JS.number]: a rational, one
    of the two infinities, or NaN.  Arithmetic on the finite values is exact:
    the rounding of binary64, overflow and the sign of zero are not modelled.
    Comparisons, [Math.max], [Math.min], [indexOf] and [Number.isFinite] are
    exact in binary64 as well, and so is the arithmetic of the enumerators,
    whose percentages are integers between 0 and 100; these are modelled by
    [Z].  The properties below are stated so that they do not lean on the
    exactness of the other operations: they compare two computations made of
    the same operations, or they are about values that are given.

    The environment.  Three things that a request meets and that are not
    written in [app.js] are inputs of the model: what [Number] makes of a
    string, how many arguments the engine accepts in one call (the handler
    spreads the array of candidates into [Math.min] and [Math.max]), and
    whether the session store still holds the session of the request. *)

From Stdlib Require Import String DecimalString.
From Stdlib Require Import QArith Qround Lqa Lia ZArith Bool List.
From Stdlib Require Import Morphisms Setoid Sorted.
Import ListNotations.

(* ================================================================== *)
(** ** JavaScript numbers *)
(* ================================================================== *)

Module JS.

Inductive number : Type :=
| Fin (q : Q)
| PosInf
| NegInf
| NaN.

Definition Qltb (a b : Q) : bool :=
  match a ?= b with Lt => true | _ => false end.

(** [-a] *)
Definition neg (a : number) : number :=
  match a with
  | Fin x => Fin (- x)
  | PosInf => NegInf
  | NegInf => PosInf
  | NaN => NaN
  end.

(** [a + b] *)
Definition add (a b : number) : number :=
  match a, b with
  | NaN, _ | _, NaN => NaN
  | Fin x, Fin y => Fin (x + y)
  | PosInf, NegInf | NegInf, PosInf => NaN
  | PosInf, _ | _, PosInf => PosInf
  | NegInf, _ | _, NegInf => NegInf
  end.

(** [a - b] *)
Definition sub (a b : number) : number := add a (neg b).

(** An infinity [i] multiplied by the finite [x]. *)
Definition scale_inf (x : Q) (i : number) : number :=
  if Qeq_bool x 0 then NaN else if Qltb 0 x then i else neg i.

(** [a * b] *)
Definition mul (a b : number) : number :=
  match a, b with
  | NaN, _ | _, NaN => NaN
  | Fin x, Fin y => Fin (x * y)
  | Fin x, i | i, Fin x => scale_inf x i
  | PosInf, PosInf | NegInf, NegInf => PosInf
  | PosInf, NegInf | NegInf, PosInf => NegInf
  end.

(** [a / b]; a zero divisor counts as [+0]. *)
Definition div (a b : number) : number :=
  match a, b with
  | NaN, _ | _, NaN => NaN
  | Fin x, Fin y =>
      if Qeq_bool y 0
      then (if Qeq_bool x 0 then NaN else if Qltb 0 x then PosInf else NegInf)
      else Fin (x / y)
  | Fin _, _ => Fin 0
  | i, Fin y => if Qltb y 0 then neg i else i
  | _, _ => NaN
  end.

(** [a < b] *)
Definition lt (a b : number) : bool :=
  match a, b with
  | Fin x, Fin y => Qltb x y
  | NegInf, Fin _ | NegInf, PosInf | Fin _, PosInf => true
  | _, _ => false
  end.

(** [a <= b] *)
Definition le (a b : number) : bool :=
  match a, b with
  | Fin x, Fin y => Qle_bool x y
  | NegInf, Fin _ | NegInf, PosInf | Fin _, PosInf => true
  | PosInf, PosInf | NegInf, NegInf => true
  | _, _ => false
  end.

(** [a > b] and [a >= b] *)
Definition gt (a b : number) : bool := lt b a.
Definition ge (a b : number) : bool := le b a.

(** [a === b] on two numbers *)
Definition strict_eq (a b : number) : bool :=
  match a, b with
  | Fin x, Fin y => Qeq_bool x y
  | PosInf, PosInf | NegInf, NegInf => true
  | _, _ => false
  end.

(** [Number.isFinite(a)] *)
Definition isFinite (a : number) : bool :=
  match a with Fin _ => true | _ => false end.

(** Truthiness of a number: [0] and [NaN] are falsy. *)
Definition truthy (a : number) : bool :=
  match a with
  | Fin x => negb (Qeq_bool x 0)
  | NaN => false
  | _ => true
  end.

(** [a || b] *)
Definition or_else (a b : number) : number := if truthy a then a else b.

(** One step of [Math.max] / [Math.min]: [hi] is the value kept so far. *)
Definition max_step (hi x : number) : number :=
  match hi, x with
  | NaN, _ | _, NaN => NaN
  | _, _ => if lt hi x then x else hi
  end.

Definition min_step (lo x : number) : number :=
  match lo, x with
  | NaN, _ | _, NaN => NaN
  | _, _ => if lt x lo then x else lo
  end.

(** [Math.max(...l)] and [Math.min(...l)]: [-Infinity] and [Infinity] on
    the empty list, [NaN] as soon as one argument is [NaN]. *)
Definition Math_max (l : list number) : number := fold_left max_step l NegInf.
Definition Math_min (l : list number) : number := fold_left min_step l PosInf.

(** [Math.round(a)]: the nearest integer, a tie going up. *)
Definition Math_round (a : number) : number :=
  match a with
  | Fin x => Fin (inject_Z (Qfloor (x + (1 # 2))))
  | _ => a
  end.

(** [l[i]] where the result takes part in arithmetic: [undefined] (an index
    out of range) behaves as [NaN] there. *)
Definition at_ (l : list number) (i : nat) : number := nth i l NaN.

(** [l.indexOf(x)]: the first index whose element is [=== x], [None] for
    the [-1] of the source. *)
Fixpoint indexOf (l : list number) (x : number) : option nat :=
  match l with
  | [] => None
  | y :: l' =>
      if strict_eq y x then Some 0%nat
      else option_map S (indexOf l' x)
  end.

(** [l.reduce((acc, x, i) => f acc x i, init)] *)
Fixpoint reduce_from {A B : Type} (f : B -> A -> nat -> B) (i : nat)
  (l : list A) (acc : B) : B :=
  match l with
  | [] => acc
  | x :: l' => reduce_from f (S i) l' (f acc x i)
  end.

Definition reduce {A B : Type} (f : B -> A -> nat -> B) (l : list A)
  (init : B) : B :=
  reduce_from f 0 l init.

(** Equality of numbers as values: two fractions of the same rational are
    the same number. *)
Definition num_eq (a b : number) : Prop :=
  match a, b with
  | Fin x, Fin y => x == y
  | PosInf, PosInf | NegInf, NegInf | NaN, NaN => True
  | _, _ => False
  end.

End JS.

Import JS.

Declare Scope num_scope.
Delimit Scope num_scope with num.
Bind Scope num_scope with number.
Notation "a + b" := (add a b) : num_scope.
Notation "a - b" := (sub a b) : num_scope.
Notation "a * b" := (mul a b) : num_scope.
Notation "a / b" := (div a b) : num_scope.
Notation "a <? b" := (lt a b) : num_scope.
Notation "a <=? b" := (le a b) : num_scope.
Notation "a >? b" := (gt a b) : num_scope.
Notation "a >=? b" := (ge a b) : num_scope.
Notation "a === b" := (strict_eq a b) (at level 70, no associativity) : num_scope.
Notation "a || b" := (or_else a b) : num_scope.
Notation "a =~ b" := (num_eq a b) (at level 70, no associativity) : num_scope.
Notation "$ q" := (Fin q%Q) (at level 9, q at level 9, format "$ q") : num_scope.

(* ================================================================== *)
(** ** The AFT regression *)
(* ================================================================== *)

Local Open Scope num_scope.

(** [function calculateAFT(values)] *)
Definition calculateAFT (values : list number) : number :=
  let SiO2 := at_ values 0 in
  let Al2O3 := at_ values 1 in
  let Fe2O3 := at_ values 2 in
  let CaO := at_ values 3 in
  let MgO := at_ values 4 in
  let Na2O := at_ values 5 in
  let K2O := at_ values 6 in
  let SO3 := at_ values 7 in
  let Ti2O := at_ values 8 in
  let sumSiAl := SiO2 + Al2O3 in
  if sumSiAl <? $55 then
    $1245 + $1.1 * SiO2 + $0.95 * Al2O3 - $2.5 * Fe2O3 - $2.98 * CaO
    - $4.5 * MgO - $7.89 * (Na2O + K2O) - $1.7 * SO3 - $0.63 * Ti2O
  else if (sumSiAl >=? $55) && (sumSiAl <? $75) then
    $1323 + $1.45 * SiO2 + $0.683 * Al2O3 - $2.39 * Fe2O3 - $3.1 * CaO
    - $4.5 * MgO - $7.49 * (Na2O + K2O) - $2.1 * SO3 - $0.63 * Ti2O
  else
    $1395 + $1.2 * SiO2 + $0.9 * Al2O3 - $2.5 * Fe2O3 - $3.1 * CaO
    - $4.5 * MgO - $7.2 * (Na2O + K2O) - $1.7 * SO3 - $0.63 * Ti2O.

(** The three regimes as the design document tabulates them, over the named
    oxides; [calculateAFT] above is compared with them. *)
Section Regimes.
Variables SiO2 Al2O3 Fe2O3 CaO MgO Na2O K2O SO3 TiO2 : number.

Definition regime1 : number :=
  $1245 + $1.1 * SiO2 + $0.95 * Al2O3 - $2.5 * Fe2O3 - $2.98 * CaO
  - $4.5 * MgO - $7.89 * (Na2O + K2O) - $1.7 * SO3 - $0.63 * TiO2.

Definition regime2 : number :=
  $1323 + $1.45 * SiO2 + $0.683 * Al2O3 - $2.39 * Fe2O3 - $3.1 * CaO
  - $4.5 * MgO - $7.49 * (Na2O + K2O) - $2.1 * SO3 - $0.63 * TiO2.

Definition regime3 : number :=
  $1395 + $1.2 * SiO2 + $0.9 * Al2O3 - $2.5 * Fe2O3 - $3.1 * CaO
  - $4.5 * MgO - $7.2 * (Na2O + K2O) - $1.7 * SO3 - $0.63 * TiO2.
End Regimes.

(* ================================================================== *)
(** ** The values of a JSON body and [Number] *)
(* ================================================================== *)

(** A field of an element of [req.body.blends] as the handler finds it:
    absent ([undefined]), [null], a boolean, a number, a string, or an array
    or another object.  An array or object is given by the string that its
    conversion to a primitive yields, which is all that [Number] reads of
    it: the empty string for [[]], ["[object Object]"] for a plain object. *)
Module Json.

Inductive value : Type :=
| Undefined
| Null
| Boolean (b : bool)
| Num (n : number)
| Str (s : string)
| Obj (primitive : string).

(** [Number(v)].  [StringToNumber] is the conversion of the language for
    strings: it is not code of [app.js] and is a parameter here. *)
Definition Number (StringToNumber : string -> number) (v : value) : number :=
  match v with
  | Undefined => NaN
  | Null => $0
  | Boolean true => $1
  | Boolean false => $0
  | Num n => n
  | Str s => StringToNumber s
  | Obj s => StringToNumber s
  end.

End Json.

(* ================================================================== *)
(** ** The request body *)
(* ================================================================== *)

(** One element of [req.body.blends], a JSON object.  The numeric fields hold
    what the handler's coercions return on the JSON values:
    [min], [max] and [current] are [Number(b.min)], [Number(b.max)] and
    [Number(b.current)] (see [json] and [coerce] below); [cost] is
    [Number(String(b.cost).replace(/,/g, '').trim())]; [properties col] is
    [Number(v)] for the value [v] looked up under the column [col] (its
    upper-case or lower-case spelling when the first is absent, [0] when
    none is there), and under ["GCV"] the number of the GCV entry ([NaN]
    when there is none).  [coal] is [b.coal || ''].  A blank cost is
    answered with 0 before the coercion, which is what the coerced value
    gives as well.  The coercion of strings to numbers is a parameter of
    the model (see [Json.Number]). *)
Module Body.
Record blend : Type := {
  coal : string;
  properties : string -> number;
  min : number;
  max : number;
  current : number;
  cost : number
}.

(** An element with [min], [max] and [current] as the JSON values they are,
    before [Number]; the other fields as in [blend]. *)
Record json : Type := {
  json_coal : string;
  json_properties : string -> number;
  json_min : Json.value;
  json_max : Json.value;
  json_current : Json.value;
  json_cost : number
}.

(** The element as the handler reads it: [Number(b.min)], [Number(b.max)]
    and [Number(b.current)]. *)
Definition coerce (StringToNumber : string -> number) (j : json) : blend :=
  {| coal := json_coal j;
     properties := json_properties j;
     min := Json.Number StringToNumber (json_min j);
     max := Json.Number StringToNumber (json_max j);
     current := Json.Number StringToNumber (json_current j);
     cost := json_cost j |}.
End Body.

(** [req.body.blends]: a falsy value (in particular a missing field), a
    truthy value that is not an array, or an array of objects.  An array
    with a [null] element, on which the handler throws, is outside the
    model. *)
Inductive blends_field : Type :=
| Falsy
| NotArray
| Arr (blends : list Body.blend).

(** Integers of the enumeration as JavaScript numbers, and back. *)
Definition of_int (z : Z) : number := Fin (inject_Z z).

Definition to_int (a : number) : Z :=
  match a with Fin x => Qfloor x | _ => 0%Z end.

(** [l.map((x, i) => f x i)] *)
Fixpoint mapi_from {A B : Type} (f : A -> nat -> B) (i : nat) (l : list A)
  : list B :=
  match l with
  | [] => []
  | x :: l' => f x i :: mapi_from f (S i) l'
  end.

Definition mapi {A B : Type} (f : A -> nat -> B) (l : list A) : list B :=
  mapi_from f 0 l.

(** The integers [lo, lo+1, ..., hi] that [for (v = lo; v <= hi; v += 1)]
    visits, in order. *)
Definition Zrange (lo hi : Z) : list Z :=
  map (fun i => (lo + Z.of_nat i)%Z) (seq 0 (Z.to_nat (hi - lo + 1))).

(** [a.reduce((s, v) => s + v, 0)] on integers *)
Definition sumZ (a : list Z) : Z := fold_left Z.add a 0%Z.

(* ================================================================== *)
(** ** The current server: [/optimize] *)
(* ================================================================== *)

Module App.

Definition oxideCols : list string :=
  ["SiO2"; "Al2O3"; "Fe2O3"; "CaO"; "MgO"; "Na2O"; "K2O"; "SO3"; "TiO2"]%string.

Definition coalNames (blends : list Body.blend) : list string :=
  map Body.coal blends.

Definition oxideValues (blends : list Body.blend) : list (list number) :=
  map (fun b => map (fun col =>
         let n := Body.properties b col in
         if isFinite n then n else $0) oxideCols) blends.

(** The sanitised bounds of one coal. *)
Definition sanitizeBounds (b : Body.blend) : number * number :=
  let min := if isFinite (Body.min b) then Body.min b else $0 in
  let max := if isFinite (Body.max b) then Body.max b else $100 in
  let mm := Math_max [$0; Math_min [$100; min]] in
  let mx := Math_max [mm; Math_min [$100; max]] in
  (Math_round mm, Math_round mx).

Definition minMaxBounds (blends : list Body.blend) : list (number * number) :=
  map sanitizeBounds blends.

(** The bounds as the integers they are (see [sanitizeBounds_int] below). *)
Definition intBounds (blends : list Body.blend) : list (Z * Z) :=
  map (fun p => (to_int (fst p), to_int (snd p))) (minMaxBounds blends).

Definition costsPerTon (blends : list Body.blend) : list number :=
  map (fun b => let n := Body.cost b in if isFinite n then n else $0) blends.

Definition gcvValue (blends : list Body.blend) : list number :=
  map (fun b => let n := Body.properties b "GCV"%string in
                if isFinite n then n else $0) blends.

(** [function* generateCombinations(bounds, idx = 0, acc = [])], as the list
    of the vectors it yields, in order.  [None] is the [TypeError] of
    destructuring [bounds[idx]] when [idx] is out of range.  The first
    argument bounds the depth of the recursion; [generateCombinations] below
    gives it a value the recursion never exhausts. *)
Fixpoint generateCombinations_rec (depth : nat) (bounds : list (Z * Z))
  (idx : nat) (acc : list Z) : option (list (list Z)) :=
  match depth with
  | O => None
  | S depth' =>
      if (Z.of_nat idx =? Z.of_nat (length bounds) - 1)%Z then
        let sumSoFar := sumZ acc in
        let lastVal := (100 - sumSoFar)%Z in
        match nth_error bounds idx with
        | None => None
        | Some (minLast, maxLast) =>
            if ((lastVal >=? minLast) && (lastVal <=? maxLast))%Z
            then Some [acc ++ [lastVal]]
            else Some []
        end
      else
        match nth_error bounds idx with
        | None => None
        | Some (min, max) =>
            (fix loop (vs : list Z) : option (list (list Z)) :=
               match vs with
               | [] => Some []
               | v :: vs' =>
                   let sumSoFar := (sumZ acc + v)%Z in
                   if (sumSoFar >? 100)%Z then Some []
                   else
                     let remainingMin :=
                       fold_left (fun s b => (s + fst b)%Z)
                                 (skipn (idx + 1) bounds) 0%Z in
                     let remainingMax :=
                       fold_left (fun s b => (s + snd b)%Z)
                                 (skipn (idx + 1) bounds) 0%Z in
                     if (sumSoFar + remainingMax <? 100)%Z then loop vs'
                     else if (sumSoFar + remainingMin >? 100)%Z then loop vs'
                     else
                       match generateCombinations_rec depth' bounds (idx + 1)
                               (acc ++ [v]) with
                       | None => None
                       | Some here =>
                           match loop vs' with
                           | None => None
                           | Some rest => Some (here ++ rest)
                           end
                       end
               end) (Zrange min max)
        end
  end.

Definition generateCombinations (bounds : list (Z * Z))
  : option (list (list Z)) :=
  generateCombinations_rec (S (length bounds)) bounds 0 [].

(** One entry of [validBlends]; [blended_oxides] is absent from the current
    blend. *)
Record Candidate : Type := {
  blend : list number;
  predicted_aft : number;
  cost : number;
  gcv : number;
  blended_oxides : option (list number)
}.

(** The body of the loop over the generated blends. *)
Definition evaluate (blends : list Body.blend) (blend : list number)
  : Candidate :=
  let weights := map (fun x => x / $100) blend in
  let blendedOxides :=
    mapi (fun _ oi =>
            reduce (fun sum val idx => sum + at_ val oi * at_ weights idx)
                   (oxideValues blends) $0) oxideCols in
  let predictedAFT := calculateAFT blendedOxides in
  let totalGcv :=
    reduce (fun sum pct i => sum + pct * (at_ (gcvValue blends) i || $0))
           blend $0 / $100 in
  let totalCost :=
    reduce (fun sum pct i => sum + pct * (at_ (costsPerTon blends) i || $0))
           blend $0 / $100 in
  {| blend := blend;
     predicted_aft := predictedAFT;
     cost := totalCost;
     gcv := totalGcv;
     blended_oxides := Some blendedOxides |}.

Definition validBlendsOf (blends : list Body.blend)
  (combos : list (list Z)) : list Candidate :=
  map (fun blend => evaluate blends (map of_int blend)) combos.

Definition aftVals (validBlends : list Candidate) : list number :=
  map predicted_aft validBlends.

Definition costVals (validBlends : list Candidate) : list number :=
  map cost validBlends.

Definition aftNorm (aftMin aftMax : number) (b : Candidate) : number :=
  if aftMax === aftMin then $0.5
  else (predicted_aft b - aftMin) / (aftMax - aftMin).

Definition costNorm (costMin costMax : number) (b : Candidate) : number :=
  if costMax === costMin then $0.5
  else (costMax - cost b) / (costMax - costMin).

(** [validBlends.map(b => ...)] with the four extremes computed before. *)
Definition blendScores (aftMin aftMax costMin costMax : number)
  (validBlends : list Candidate) : list number :=
  map (fun b => aftNorm aftMin aftMax b + costNorm costMin costMax b)
      validBlends.

(** [validBlends[i]]: [undefined] when [i] is the [-1] of [indexOf]. *)
Definition pick (validBlends : list Candidate) (i : option nat)
  : option Candidate :=
  match i with
  | Some n => nth_error validBlends n
  | None => None
  end.

(** [f(...args)]: the elements of the array become the arguments of one
    call.  The engine accepts [maxArguments] of them; with more the call
    throws a RangeError, which is [None]. *)
Definition spread (maxArguments : nat) (f : list number -> number)
  (args : list number) : option number :=
  if (length args <=? maxArguments)%nat then Some (f args) else None.

(** The three blends picked among the candidates. *)
Record Selection : Type := {
  bestAftBlend : option Candidate;
  cheapestBlend : option Candidate;
  balancedBlend : option Candidate
}.

(** From [const aftVals = ...] to [const balancedBlend = ...], with its seven
    spreads; [None] is the RangeError of one of them. *)
Definition select (maxArguments : nat) (validBlends : list Candidate)
  : option Selection :=
  let aftVals := aftVals validBlends in
  let costVals := costVals validBlends in
  match spread maxArguments Math_min aftVals with None => None | Some aftMin =>
  match spread maxArguments Math_max aftVals with None => None | Some aftMax =>
  match spread maxArguments Math_min costVals with None => None | Some costMin =>
  match spread maxArguments Math_max costVals with None => None | Some costMax =>
  let blendScores := blendScores aftMin aftMax costMin costMax validBlends in
  match spread maxArguments Math_max aftVals with None => None | Some maxAft =>
  let indexOfBestAft := indexOf aftVals maxAft in
  match spread maxArguments Math_min costVals with None => None | Some minCost =>
  let indexOfCheapest := indexOf costVals minCost in
  match spread maxArguments Math_max blendScores with None => None | Some maxScore =>
  let indexOfBalanced := indexOf blendScores maxScore in
  Some {| bestAftBlend := pick validBlends indexOfBestAft;
          cheapestBlend := pick validBlends indexOfCheapest;
          balancedBlend := pick validBlends indexOfBalanced |}
  end end end end end end end.

Definition currentWeights (blends : list Body.blend) : list number :=
  map (fun b => let n := Body.current b in
                if isFinite n then n / $100 else $0) blends.

Definition currentBlendedOxides (blends : list Body.blend) : list number :=
  mapi (fun _ oi =>
          reduce (fun sum val idx =>
                    sum + at_ val oi * (at_ (currentWeights blends) idx || $0))
                 (oxideValues blends) $0) oxideCols.

Definition currentBlend (blends : list Body.blend) : Candidate :=
  let currentAFT := calculateAFT (currentBlendedOxides blends) in
  let currentGCV :=
    reduce (fun sum b i =>
              sum + (Body.current b || $0) * (at_ (gcvValue blends) i || $0))
           blends $0 / $100 in
  let currentCost :=
    reduce (fun sum b i =>
              sum + (Body.current b || $0) * (at_ (costsPerTon blends) i || $0))
           blends $0 / $100 in
  {| blend := map (fun b => Body.current b || $0) blends;
     predicted_aft := currentAFT;
     cost := currentCost;
     gcv := currentGCV;
     blended_oxides := None |}.

Definition individualCoalAFTs (blends : list Body.blend)
  : list (string * number) :=
  mapi (fun vals i =>
          (let name := nth i (coalNames blends) EmptyString in
           if String.eqb name EmptyString
           then ("coal-" ++ NilEmpty.string_of_uint (Nat.to_uint i))%string
           else name,
           calculateAFT vals))
       (oxideValues blends).

Record Result : Type := {
  best_aft_blend : option Candidate;
  cheapest_blend : option Candidate;
  balanced_blend : option Candidate;
  current_blend : Candidate;
  individual_coal_afts : list (string * number)
}.

(** What the optimisation part of the handler sends. *)
Inductive response : Type :=
| Status400 (error : string)
| Status404 (message : string)
| Status500 (error : string)
| Status200 (result : Result).

(** The optimisation logic of [app.post("/optimize", ...)], from
    [const { blends } = req.body] to the response, for an engine that accepts
    [maxArguments] arguments in a call; an exception is answered with status
    500 by the [catch] of the handler.  The session and trial bookkeeping
    around it is in [Server] below. *)
Definition optimize (maxArguments : nat) (blends : blends_field) : response :=
  match blends with
  | Falsy | NotArray | Arr [] => Status400 "Invalid blend data"
  | Arr blends =>
      match generateCombinations (intBounds blends) with
      | None => Status500 "Optimization failed"
      | Some combos =>
          let validBlends := validBlendsOf blends combos in
          if (length validBlends =? 0)%nat
          then Status404 "No valid blends found"
          else
            match select maxArguments validBlends with
            | None => Status500 "Optimization failed"
            | Some selection =>
                Status200
                  {| best_aft_blend := bestAftBlend selection;
                     cheapest_blend := cheapestBlend selection;
                     balanced_blend := balancedBlend selection;
                     current_blend := currentBlend blends;
                     individual_coal_afts := individualCoalAFTs blends |}
            end
      end
  end.

End App.

(* ================================================================== *)
(** ** The earlier server: the cross-product enumerator *)
(* ================================================================== *)

Module Legacy.

(** [function* generateCombinations(bounds, step)] with its inner
    [helper(index, combo)], for [step = 1], as the list of the vectors it
    yields.  The first argument bounds the depth of the recursion.  The
    bounds are integers, as the data model has them; what the function does
    with other numbers, or with integers so large that [i += step] and the
    sums are not exact in binary64, is outside the model. *)
Fixpoint helper (depth : nat) (bounds : list (Z * Z)) (index : nat)
  (combo : list Z) : list (list Z) :=
  match depth with
  | O => []
  | S depth' =>
      if (index =? length bounds)%nat then
        let sum := sumZ combo in
        if (sum =? 100)%Z then [combo] else []
      else
        match nth_error bounds index with
        | None => []
        | Some (min, max) =>
            flat_map (fun i => helper depth' bounds (index + 1) (combo ++ [i]))
                     (Zrange min max)
        end
  end.

Definition generateCombinations (bounds : list (Z * Z)) : list (list Z) :=
  helper (S (length bounds)) bounds 0 [].

End Legacy.

(* ================================================================== *)
(** ** The current server: authentication, trials and locks *)
(* ================================================================== *)

(** The routes around the optimisation: [requireAuth], [/optimize] as a
    whole, [/consume-trial], [/auth/login] and [/auth/logout].  A date is
    its number of milliseconds since the epoch; every reading of the clock
    ([new Date()], [Date.now()]) is an input of the request, one per place
    of the source that reads it.  The session is configured with a cookie
    [maxAge] of seven days; when a session ends is decided by the session
    store and the client, not by [app.js], so whether the session of a
    request is still there is an input of the request as well.  The user
    collection and the session store never fail, and requests are handled
    one at a time.  What [getClientIp(req)] and [bcrypt.compare] return are
    inputs of the request too. *)
Module Server.

(** The fields of a user document that the routes read or write. *)
Record User : Type := {
  email : string;
  trialsLeft : number;
  lockedUntil : option Z;
  lastIP : option string;
  ipHistory : list (option string * Z)
}.

(** The user collection: the documents with their [_id], in the order of
    the collection. *)
Definition Users : Type := list (string * User).

(** [User.findById(uid)] *)
Fixpoint findById (uid : string) (db : Users) : option User :=
  match db with
  | [] => None
  | (k, u) :: db' => if String.eqb k uid then Some u else findById uid db'
  end.

(** [User.findOne({ email: key })], with the [_id] of the document *)
Fixpoint findOne (key : string) (db : Users) : option (string * User) :=
  match db with
  | [] => None
  | (k, u) :: db' =>
      if String.eqb (email u) key then Some (k, u) else findOne key db'
  end.

(** [user.save()] for the document of id [uid] *)
Fixpoint save (uid : string) (u : User) (db : Users) : Users :=
  match db with
  | [] => []
  | (k, u') :: db' =>
      if String.eqb k uid then (k, u) :: db' else (k, u') :: save uid u db'
  end.

(** The collection and [req.session.userId] ([None] when there is no
    session, as after [req.session.destroy]). *)
Record State : Type := {
  users : Users;
  session : option string
}.

(** [24 * 3600 * 1000] *)
Definition day : Z := 24 * 3600 * 1000.

(** [user.lockedUntil && user.lockedUntil > now]: the date of the lock
    when the test holds. *)
Definition lockedAt (user : User) (now : Z) : option Z :=
  match lockedUntil user with
  | Some t => if (t >? now)%Z then Some t else None
  | None => None
  end.

(** The answers of the routes.  [Locked t] is status 403 with
    ['Account locked until ' + t.toISOString()]; [Exhausted] is status 403
    with ['Trials exhausted. Account locked for 24 hours.']; [Optimize r]
    is what the optimisation logic answers; the three answers of
    [/consume-trial] carry its [trialsLeft] and [lockedUntil]. *)
Inductive reply : Type :=
| Unauthorized (error : string)
| Locked (until : Z)
| Exhausted
| Optimize (r : App.response)
| ConsumeLocked (until : option Z) (trials : number)
| ConsumeExhausted (trials : number) (until : option Z)
| Consumed (trials : number) (until : option Z)
| MissingCredentials
| InvalidCredentials
| LoggedIn
| LoggedOut.

(** The HTTP status of an answer. *)
Definition status (r : reply) : Z :=
  match r with
  | Unauthorized _ | InvalidCredentials => 401
  | Locked _ | Exhausted | ConsumeLocked _ _ => 403
  | MissingCredentials => 400
  | Optimize (App.Status400 _) => 400
  | Optimize (App.Status404 _) => 404
  | Optimize (App.Status500 _) => 500
  | Optimize (App.Status200 _) => 200
  | ConsumeExhausted _ _ | Consumed _ _ | LoggedIn | LoggedOut => 200
  end.

(** [requireAuth]: the answer and the state when the request is refused,
    the user and its id when [next()] is called. *)
Inductive auth : Type :=
| Refused (r : reply) (st : State)
| Granted (uid : string) (user : User).

Definition requireAuth (now : Z) (st : State) : auth :=
  match session st with
  | None => Refused (Unauthorized "Not authenticated") st
  | Some uid =>
      match findById uid (users st) with
      | None =>
          Refused (Unauthorized "User not found")
                  {| users := users st; session := None |}
      | Some user =>
          match lockedAt user now with
          | Some t => Refused (Locked t) st
          | None => Granted uid user
          end
      end
  end.

(** What one request takes from its environment.  The readings of the
    clock, by the place that reads: the lock check of [requireAuth], the lock
    check of the handler, [Date.now()] when the handler locks the account,
    and the date of the [ipHistory] entry.  Whether the session store still
    holds the session the request comes with ([session_alive]); and the
    number of arguments the engine accepts in a call when the handler
    spreads the candidates ([maxArguments]). *)
Record Clock : Type := {
  at_auth : Z;
  at_check : Z;
  at_lock : Z;
  at_history : Z;
  session_alive : bool;
  maxArguments : nat
}.

(** The state a request of [/optimize] or [/consume-trial] finds: a session
    that has ended is an empty one. *)
Definition arrive (clock : Clock) (st : State) : State :=
  if session_alive clock then st
  else {| users := users st; session := None |}.

(** The handler of [/optimize], entered with the user of [requireAuth]. *)
Definition optimizeHandler (clock : Clock) (ip : option string)
  (body : blends_field) (uid : string) (user : User) (st : State)
  : reply * State :=
  match lockedAt user (at_check clock) with
  | Some t => (Locked t, st)
  | None =>
      if (trialsLeft user || $0) <=? $0 then
        (Exhausted,
         {| users :=
              save uid
                   {| email := email user;
                      trialsLeft := trialsLeft user;
                      lockedUntil := Some (at_lock clock + day)%Z;
                      lastIP := lastIP user;
                      ipHistory := ipHistory user |} (users st);
            session := None |})
      else
        match App.optimize (maxArguments clock) body with
        | App.Status200 result =>
            let trialsLeft' :=
              Math_max [$0; (trialsLeft user || $0) - $1] in
            (Optimize (App.Status200 result),
             {| users :=
                  save uid
                       {| email := email user;
                          trialsLeft := trialsLeft';
                          lockedUntil :=
                            if trialsLeft' <=? $0
                            then Some (at_lock clock + day)%Z
                            else lockedUntil user;
                          lastIP := ip;
                          ipHistory :=
                            ipHistory user ++ [(ip, at_history clock)] |}
                       (users st);
                session := session st |})
        | r => (Optimize r, st)
        end
  end.

(** [app.post("/optimize", requireAuth, ...)] *)
Definition optimizeRoute (clock : Clock) (ip : option string)
  (body : blends_field) (st : State) : reply * State :=
  let st := arrive clock st in
  match requireAuth (at_auth clock) st with
  | Refused r st' => (r, st')
  | Granted uid user => optimizeHandler clock ip body uid user st
  end.

(** The handler of [/consume-trial]. *)
Definition consumeTrialHandler (clock : Clock) (uid : string) (user : User)
  (st : State) : reply * State :=
  match lockedAt user (at_check clock) with
  | Some _ => (ConsumeLocked (lockedUntil user) (trialsLeft user), st)
  | None =>
      let trialsLeft' := (trialsLeft user || $0) - $1 in
      if trialsLeft' <=? $0 then
        (ConsumeExhausted $0 (Some (at_lock clock + day)%Z),
         {| users :=
              save uid
                   {| email := email user;
                      trialsLeft := $0;
                      lockedUntil := Some (at_lock clock + day)%Z;
                      lastIP := lastIP user;
                      ipHistory := ipHistory user |} (users st);
            session := None |})
      else
        (Consumed trialsLeft' (lockedUntil user),
         {| users :=
              save uid
                   {| email := email user;
                      trialsLeft := trialsLeft';
                      lockedUntil := lockedUntil user;
                      lastIP := lastIP user;
                      ipHistory := ipHistory user |} (users st);
            session := session st |})
  end.

(** [app.post('/consume-trial', requireAuth, ...)] *)
Definition consumeTrialRoute (clock : Clock) (st : State) : reply * State :=
  let st := arrive clock st in
  match requireAuth (at_auth clock) st with
  | Refused r st' => (r, st')
  | Granted uid user => consumeTrialHandler clock uid user st
  end.

(** [app.post('/auth/login', ...)].  [key] is
    [email.toLowerCase().trim()] for a truthy [email] that is a string,
    [None] for a falsy one; [hasPassword] tells whether [password] is
    truthy and [passwordOk] what [bcrypt.compare] answers for the user
    found. *)
Definition loginRoute (key : option string) (hasPassword passwordOk : bool)
  (clock : Clock) (ip : option string) (st : State) : reply * State :=
  let st := arrive clock st in
  match key with
  | None => (MissingCredentials, st)
  | Some key =>
      if negb hasPassword then (MissingCredentials, st) else
      match findOne key (users st) with
      | None => (InvalidCredentials, st)
      | Some (uid, user) =>
          match lockedAt user (at_check clock) with
          | Some t => (Locked t, st)
          | None =>
              if negb passwordOk then (InvalidCredentials, st) else
              (LoggedIn,
               {| users :=
                    save uid
                         {| email := email user;
                            trialsLeft := trialsLeft user;
                            lockedUntil := lockedUntil user;
                            lastIP := ip;
                            ipHistory :=
                              ipHistory user ++ [(ip, at_history clock)] |}
                         (users st);
                  session := Some uid |})
          end
      end
  end.

(** [app.post('/auth/logout', ...)] *)
Definition logoutRoute (st : State) : reply * State :=
  (LoggedOut, {| users := users st; session := None |}).

(** The requests of a client to these routes. *)
Inductive request : Type :=
| PostOptimize (clock : Clock) (ip : option string) (body : blends_field)
| PostConsumeTrial (clock : Clock)
| PostLogin (key : option string) (hasPassword passwordOk : bool)
            (clock : Clock) (ip : option string)
| PostLogout.

Definition handle (req : request) (st : State) : reply * State :=
  match req with
  | PostOptimize clock ip body => optimizeRoute clock ip body st
  | PostConsumeTrial clock => consumeTrialRoute clock st
  | PostLogin key hasPassword passwordOk clock ip =>
      loginRoute key hasPassword passwordOk clock ip st
  | PostLogout => logoutRoute st
  end.

(** A sequence of requests, one after the other: the answers with the
    session user each request came with, and the final state. *)
Fixpoint serve (reqs : list request) (st : State)
  : list (option string * reply) * State :=
  match reqs with
  | [] => ([], st)
  | req :: reqs' =>
      let (r, st') := handle req st in
      let (rs, st'') := serve reqs' st' in
      ((session st, r) :: rs, st'')
  end.

(** An answer that carries an optimisation result. *)
Definition is_result (r : reply) : bool :=
  match r with
  | Optimize (App.Status200 _) => true
  | _ => false
  end.

(** No trial is left: [(user.trialsLeft || 0) <= 0]. *)
Definition exhausted (user : User) : bool :=
  (trialsLeft user || $0) <=? $0.

End Server.

(* ================================================================== *)
(** ** The enumerators by the bounds still to be visited *)
(* ================================================================== *)

(** Both enumerators read [bounds] only from the current index on.  The
    functions below are the same computations, recursive on that suffix
    [bounds.slice(idx)]; [generateCombinations_rec_suffix] and
    [helper_suffix] prove them equal to the functions above, and the
    properties of the enumerators are proved on them. *)

Definition remainingMin (rest : list (Z * Z)) : Z :=
  fold_left (fun s b => (s + fst b)%Z) rest 0%Z.

Definition remainingMax (rest : list (Z * Z)) : Z :=
  fold_left (fun s b => (s + snd b)%Z) rest 0%Z.

(** The loop of the pruned enumerator over the values [vs], where [sumAcc]
    is the sum of [acc], [rest] the bounds after the current one, and
    [k v] what the recursive call yields for the value [v]. *)
Fixpoint pruned_loop (sumAcc : Z) (rest : list (Z * Z))
  (k : Z -> list (list Z)) (vs : list Z) : list (list Z) :=
  match vs with
  | [] => []
  | v :: vs' =>
      let sumSoFar := (sumAcc + v)%Z in
      if (sumSoFar >? 100)%Z then []
      else if (sumSoFar + remainingMax rest <? 100)%Z
           then pruned_loop sumAcc rest k vs'
      else if (sumSoFar + remainingMin rest >? 100)%Z
           then pruned_loop sumAcc rest k vs'
      else k v ++ pruned_loop sumAcc rest k vs'
  end.

Fixpoint pruned_from (suffix : list (Z * Z)) (acc : list Z)
  : list (list Z) :=
  match suffix with
  | [] => []
  | (min, max) :: rest =>
      match rest with
      | [] =>
          let lastVal := (100 - sumZ acc)%Z in
          if ((lastVal >=? min) && (lastVal <=? max))%Z
          then [acc ++ [lastVal]] else []
      | _ :: _ =>
          pruned_loop (sumZ acc) rest
                      (fun v => pruned_from rest (acc ++ [v]))
                      (Zrange min max)
      end
  end.

Fixpoint naive_from (suffix : list (Z * Z)) (combo : list Z)
  : list (list Z) :=
  match suffix with
  | [] => if (sumZ combo =? 100)%Z then [combo] else []
  | (min, max) :: rest =>
      flat_map (fun i => naive_from rest (combo ++ [i])) (Zrange min max)
  end.

(** Bounds of the data model: integers between 0 and 100.  On these, and on
    the sums of fewer than [2^32] of them, the arithmetic of binary64 is
    that of the integers. *)
Definition percent_bounds (bounds : list (Z * Z)) : Prop :=
  Forall (fun b => (0 <= fst b <= 100)%Z /\ (0 <= snd b <= 100)%Z) bounds.

(** A percentage vector within its bounds, position by position. *)
Definition within_bounds (bounds : list (Z * Z)) (p : list Z) : Prop :=
  Forall2 (fun b v => (fst b <= v <= snd b)%Z) bounds p.

(* ================================================================== *)
(** ** The sanitised bounds as the design document words them *)
(* ================================================================== *)

(** A field that is not a finite number takes its default. *)
Definition finite_or (d : Q) (a : number) : Q :=
  match a with Fin x => x | _ => d end.

(** Clamping to [[0, 100]]. *)
Definition clamp_percent (x : Q) : Q :=
  if Qltb x 0 then 0 else if Qltb 100 x then 100 else x.

(** Rounding to the nearest integer, a tie going up. *)
Definition round_half_up (x : Q) : Z := Qfloor (x + (1 # 2)).

(** Defaults 0 and 100, clamped, rounded, and the upper bound raised to at
    least the lower one. *)
Definition sanitized_pair (min max : number) : Z * Z :=
  let lo := round_half_up (clamp_percent (finite_or 0 min)) in
  let hi := round_half_up (clamp_percent (finite_or 100 max)) in
  (lo, Z.max lo hi).

(* ================================================================== *)
(** ** Selection, in words *)
(* ================================================================== *)

Definition all_finite (l : list number) : Prop :=
  Forall (fun x => isFinite x = true) l.

(** [i] is the first position of [l] that holds its maximum: no element is
    above [l[i]], and every element before it is strictly below. *)
Definition first_max_at (l : list number) (i : nat) : Prop :=
  exists m,
    nth_error l i = Some m /\
    (forall x, In x l -> (x <=? m) = true) /\
    (forall j x, (j < i)%nat -> nth_error l j = Some x -> (x <? m) = true).

(** [i] is the first position of [l] that holds its minimum. *)
Definition first_min_at (l : list number) (i : nat) : Prop :=
  exists m,
    nth_error l i = Some m /\
    (forall x, In x l -> (m <=? x) = true) /\
    (forall j x, (j < i)%nat -> nth_error l j = Some x -> (m <? x) = true).

(** No element is NaN; the elements may be infinite. *)
Definition no_NaN (l : list number) : Prop := Forall (fun x => x <> NaN) l.

(* ================================================================== *)
(** ** The weighted projection, in words *)
(* ================================================================== *)

(** [f 0 + f 1 + ... + f (n-1)] *)
Definition sigma (n : nat) (f : nat -> number) : number :=
  fold_left (fun s i => s + f i) (seq 0 n) $0.

(** The projection of the coals of [blends] with the percentages [pcts]:
    each of the nine oxides is the sum over the coals of the coal's oxide
    weighted by [pct / 100]; cost and GCV are the sums of [pct * cost] and
    [pct * gcv], divided by 100. *)
Definition projected_oxides (blends : list Body.blend) (pcts : list number)
  : list number :=
  map (fun oi =>
         sigma (length blends)
               (fun i => at_ (nth i (App.oxideValues blends) []) oi
                         * (at_ pcts i / $100)))
      (seq 0 9).

Definition projected_cost (blends : list Body.blend) (pcts : list number)
  : number :=
  sigma (length blends)
        (fun i => at_ pcts i * at_ (App.costsPerTon blends) i) / $100.

Definition projected_gcv (blends : list Body.blend) (pcts : list number)
  : number :=
  sigma (length blends)
        (fun i => at_ pcts i * at_ (App.gcvValue blends) i) / $100.

(** The current percentage of a coal is a number of the data model or not a
    number at all: it is not one of the infinities, which
    [Number(b.current) || 0] keeps and [Number.isFinite(n) ? n / 100 : 0]
    replaces by 0. *)
Definition current_not_infinite (b : Body.blend) : Prop :=
  Body.current b <> PosInf /\ Body.current b <> NegInf.

(** The current percentages of a request, one that is not a number
    counting as 0. *)
Definition currentPercents (blends : list Body.blend) : list number :=
  map (fun b => Fin (finite_or 0 (Body.current b))) blends.

(* ================================================================== *)
(** ** Sample requests *)
(* ================================================================== *)

(** Two coals in the manner of the scenario of the design document, each
    allowed between 40 and 60 percent. *)
Definition coalA : Body.blend :=
  {| Body.coal := "A";
     Body.properties := fun col =>
       if String.eqb col "SiO2" then $50
       else if String.eqb col "Al2O3" then $10
       else if String.eqb col "GCV" then $5000
       else $0;
     Body.min := $40; Body.max := $60;
     Body.current := $45; Body.cost := $10 |}.

Definition coalB : Body.blend :=
  {| Body.coal := "B";
     Body.properties := fun col =>
       if String.eqb col "SiO2" then $30
       else if String.eqb col "Al2O3" then $5
       else if String.eqb col "GCV" then $6000
       else $0;
     Body.min := $40; Body.max := $60;
     Body.current := $45; Body.cost := $20 |}.

(** A coal fixed at 60 percent. *)
Definition coal60 : Body.blend :=
  {| Body.coal := "C";
     Body.properties := fun _ => $0;
     Body.min := $60; Body.max := $60;
     Body.current := $50; Body.cost := $0 |}.

(** The sample elements below hold no string, so that what [Number] makes
    of a string does not matter for them: here it is never a number. *)
Definition noStrings : string -> number := fun _ => NaN.

(** An element with the lower bound 30 and [max: null]. *)
Definition nullMax : Body.json :=
  {| Body.json_coal := "F";
     Body.json_properties := fun _ => $0;
     Body.json_min := Json.Num $30;
     Body.json_max := Json.Null;
     Body.json_current := Json.Undefined;
     Body.json_cost := $0 |}.

(** A coal whose current percentage is read as Infinity, as [Number] does
    for the JSON number [1e999]. *)
Definition coalInfinite : Body.blend :=
  {| Body.coal := "E";
     Body.properties := fun col =>
       if String.eqb col "SiO2" then $50
       else if String.eqb col "Al2O3" then $10
       else if String.eqb col "GCV" then $5000
       else $0;
     Body.min := $0; Body.max := $100;
     Body.current := PosInf; Body.cost := $10 |}.

(** A coal without bounds: [min] and [max] are missing. *)
Definition coalFree : Body.blend :=
  Body.coerce noStrings
    {| Body.json_coal := "G";
       Body.json_properties := fun _ => $0;
       Body.json_min := Json.Undefined;
       Body.json_max := Json.Undefined;
       Body.json_current := Json.Num $25;
       Body.json_cost := $0 |}.


(** Two candidates as the handler has them for two coals without oxides,
    costing 1e308 and 0, with the bounds [[1, 2]] and [[98, 99]]: the product
    [2 * 1e308] in the cost of the second one is beyond the largest binary64
    number. *)
Definition overflowCandidates : list App.Candidate :=
  [ {| App.blend := [$1; $99]; App.predicted_aft := $1245;
       App.cost := $1e306; App.gcv := $0;
       App.blended_oxides := Some (repeat $0 9) |};
    {| App.blend := [$2; $98]; App.predicted_aft := $1245;
       App.cost := PosInf; App.gcv := $0;
       App.blended_oxides := Some (repeat $0 9) |} ].

(* ================================================================== *)
(** ** The order of enumeration *)
(* ================================================================== *)

(** [p] comes before [q] in the lexicographic order of percentage vectors:
    at the first position where they differ, [p] has the smaller value. *)
Fixpoint lex_lt (p q : list Z) : Prop :=
  match p, q with
  | [], _ :: _ => True
  | x :: p', y :: q' => (x < y)%Z \/ (x = y /\ lex_lt p' q')
  | _, _ => False
  end.

(** The vectors of one value [v] of the loop all start with [acc ++ [v]]. *)
Definition extends_with (acc : list Z) (k : Z -> list (list Z)) : Prop :=
  forall v p, In p (k v) -> exists q, p = acc ++ v :: q.

(** The blend made of 100 percent of the coal of index [i], among [n]
    coals. *)
Definition single_coal_blend (n i : nat) : list number :=
  map (fun j => if (j =? i)%nat then $100 else $0) (seq 0 n).

(* ================================================================== *)
(** ** Trials and results over a sequence of requests *)
(* ================================================================== *)

(** At most [n] trials are left to the user: [(user.trialsLeft || 0) <= n]. *)
Definition trials_within (user : Server.User) (n : Z) : bool :=
  (Server.trialsLeft user || $0) <=? of_int n.

(** The stored number of trials is a number that is not negative. *)
Definition trials_nonneg (user : Server.User) : bool :=
  $0 <=? Server.trialsLeft user.

(** The request came with the session of [uid] and was answered with an
    optimisation result. *)
Definition served_to (uid : string) (a : option string * Server.reply)
  : bool :=
  match fst a with
  | Some k => String.eqb k uid && Server.is_result (snd a)
  | None => false
  end.

(** The number of results the user [uid] got among the answers [rs]. *)
Definition results_served (uid : string)
  (rs : list (option string * Server.reply)) : nat :=
  length (filter (served_to uid) rs).

(** The readings of the clock of a request. *)
Definition clock_of (req : Server.request) : option Server.Clock :=
  match req with
  | Server.PostOptimize clock _ _ => Some clock
  | Server.PostConsumeTrial clock => Some clock
  | Server.PostLogin _ _ _ clock _ => Some clock
  | Server.PostLogout => None
  end.

(** A collection of two users and a session of the first one. *)
Definition alice : Server.User :=
  {| Server.email := "alice@example.com";
     Server.trialsLeft := $2;
     Server.lockedUntil := None;
     Server.lastIP := None;
     Server.ipHistory := [] |}.

Definition bob : Server.User :=
  {| Server.email := "bob@example.com";
     Server.trialsLeft := $0;
     Server.lockedUntil := Some 500%Z;
     Server.lastIP := None;
     Server.ipHistory := [] |}.

Definition sample_state : Server.State :=
  {| Server.users := [("u1"%string, alice); ("u2"%string, bob)];
     Server.session := Some "u1"%string |}.

Definition sample_clock : Server.Clock :=
  {| Server.at_auth := 1000;
     Server.at_check := 1001;
     Server.at_lock := 1002;
     Server.at_history := 1003;
     Server.session_alive := true;
     Server.maxArguments := 1000 |}.

(* ================================================================== *)
(** * Properties *)
(* ================================================================== *)

(** ** Comparisons of rationals and numbers *)

Lemma Qltb_lt (a b : Q) : Qltb a b = true <-> (a < b)%Q.
Proof.
  unfold Qltb. rewrite Qlt_alt. destruct (a ?= b)%Q; split; congruence.
Qed.

Lemma Qltb_ge (a b : Q) : Qltb a b = false <-> (b <= a)%Q.
Proof.
  rewrite <- not_true_iff_false, Qltb_lt. split; intro H.
  - apply Qnot_lt_le; exact H.
  - apply Qle_not_lt; exact H.
Qed.

Lemma Qle_bool_gt (a b : Q) : Qle_bool a b = false <-> (b < a)%Q.
Proof.
  rewrite <- not_true_iff_false, Qle_bool_iff. split; intro H.
  - apply Qnot_le_lt; exact H.
  - apply Qlt_not_le; exact H.
Qed.

Lemma Qeq_bool_false (a b : Q) : Qeq_bool a b = false <-> ~ (a == b)%Q.
Proof.
  rewrite <- not_true_iff_false, Qeq_bool_iff. reflexivity.
Qed.

(** Boolean tests on rationals, in hypotheses and goal, as propositions. *)
Ltac qprop :=
  repeat match goal with
  | H : Qltb _ _ = true |- _ => apply Qltb_lt in H
  | H : Qltb _ _ = false |- _ => apply Qltb_ge in H
  | H : Qle_bool _ _ = true |- _ => apply Qle_bool_iff in H
  | H : Qle_bool _ _ = false |- _ => apply Qle_bool_gt in H
  | H : Qeq_bool _ _ = true |- _ => apply Qeq_bool_iff in H
  | H : Qeq_bool _ _ = false |- _ => apply Qeq_bool_false in H
  | |- Qltb _ _ = true => apply Qltb_lt
  | |- Qltb _ _ = false => apply Qltb_ge
  | |- Qle_bool _ _ = true => apply Qle_bool_iff
  | |- Qle_bool _ _ = false => apply Qle_bool_gt
  | |- Qeq_bool _ _ = true => apply Qeq_bool_iff
  | |- Qeq_bool _ _ = false => apply Qeq_bool_false
  end.

Lemma lt_55_not_ge (s : number) : (s <? $55) = true -> (s >=? $55) = false.
Proof.
  destruct s; simpl; try congruence. intro H. qprop. lra.
Qed.

Lemma ge_75_not_lt (s : number) :
  (s >=? $75) = true -> (s <? $55) = false /\ (s <? $75) = false.
Proof.
  destruct s; simpl; try congruence; auto.
  intro H. split; qprop; lra.
Qed.

Lemma ge_55_not_lt (s : number) : (s >=? $55) = true -> (s <? $55) = false.
Proof.
  destruct s; simpl; try congruence; auto. intro H. qprop. lra.
Qed.

Lemma eq_55_mid (s : number) :
  (s === $55) = true -> (s >=? $55) = true /\ (s <? $75) = true.
Proof.
  destruct s; simpl; try congruence. intro H. split; qprop; lra.
Qed.

(** ** C1: the regime of [calculateAFT] *)

(** C1.  For every 9-vector of oxide values, [calculateAFT] returns the
    regime-1 formula when [sumSiAl = SiO2 + Al2O3] is below 55, the regime-2
    formula when [55 <= sumSiAl < 75], and the regime-3 formula when
    [sumSiAl >= 75]; at [sumSiAl = 55] exactly it is the regime-2 formula. *)
Theorem calculateAFT_regimes :
  forall SiO2 Al2O3 Fe2O3 CaO MgO Na2O K2O SO3 TiO2 : number,
    let values := [SiO2; Al2O3; Fe2O3; CaO; MgO; Na2O; K2O; SO3; TiO2] in
    let sumSiAl := SiO2 + Al2O3 in
    ((sumSiAl <? $55) = true ->
     calculateAFT values
     = regime1 SiO2 Al2O3 Fe2O3 CaO MgO Na2O K2O SO3 TiO2) /\
    ((sumSiAl >=? $55) = true -> (sumSiAl <? $75) = true ->
     calculateAFT values
     = regime2 SiO2 Al2O3 Fe2O3 CaO MgO Na2O K2O SO3 TiO2) /\
    ((sumSiAl >=? $75) = true ->
     calculateAFT values
     = regime3 SiO2 Al2O3 Fe2O3 CaO MgO Na2O K2O SO3 TiO2) /\
    ((sumSiAl === $55) = true ->
     calculateAFT values
     = regime2 SiO2 Al2O3 Fe2O3 CaO MgO Na2O K2O SO3 TiO2).
Proof.
  intros SiO2 Al2O3 Fe2O3 CaO MgO Na2O K2O SO3 TiO2 values sumSiAl.
  assert (E : calculateAFT values =
              if sumSiAl <? $55 then
                regime1 SiO2 Al2O3 Fe2O3 CaO MgO Na2O K2O SO3 TiO2
              else if (sumSiAl >=? $55) && (sumSiAl <? $75) then
                regime2 SiO2 Al2O3 Fe2O3 CaO MgO Na2O K2O SO3 TiO2
              else regime3 SiO2 Al2O3 Fe2O3 CaO MgO Na2O K2O SO3 TiO2)
    by reflexivity.
  repeat split.
  - intro H. rewrite E, H. reflexivity.
  - intros H1 H2. rewrite E, (ge_55_not_lt _ H1), H1, H2. reflexivity.
  - intro H. destruct (ge_75_not_lt _ H) as [H1 H2].
    rewrite E, H1, H2, andb_false_r. reflexivity.
  - intro H. destruct (eq_55_mid _ H) as [H1 H2].
    rewrite E, (ge_55_not_lt _ H1), H1, H2. reflexivity.
Qed.

(** With [SiO2 = 50] and [Al2O3 = 5] the sum is 55 exactly. *)
Lemma calculateAFT_regimes_witness :
  calculateAFT [$50; $5; $2; $1; $1; $0.5; $0.5; $1; $1]
  = regime2 $50 $5 $2 $1 $1 $0.5 $0.5 $1 $1.
Proof.
  apply (calculateAFT_regimes $50 $5 $2 $1 $1 $0.5 $0.5 $1 $1).
  reflexivity.
Defined.

(** ** Sums and ranges *)

Lemma fold_left_add_shift {A : Type} (f : A -> Z) (l : list A) (z : Z) :
  fold_left (fun s b => (s + f b)%Z) l z
  = (z + fold_left (fun s b => (s + f b)%Z) l 0)%Z.
Proof.
  revert z. induction l as [|a l IH]; intro z; simpl.
  - lia.
  - rewrite (IH (z + f a)%Z), (IH (f a)). lia.
Qed.

Lemma sumZ_cons (v : Z) (l : list Z) : sumZ (v :: l) = (v + sumZ l)%Z.
Proof.
  unfold sumZ. simpl.
  assert (E : forall z, fold_left Z.add l z = (z + fold_left Z.add l 0)%Z).
  { induction l as [|a l IH]; intro z; simpl; [lia|].
    rewrite (IH (z + a)%Z), (IH a). lia. }
  apply E.
Qed.

Lemma sumZ_app (a b : list Z) : sumZ (a ++ b) = (sumZ a + sumZ b)%Z.
Proof.
  induction a as [|x a IH]; simpl.
  - reflexivity.
  - rewrite !sumZ_cons, IH. lia.
Qed.

Lemma sumZ_snoc (a : list Z) (v : Z) : sumZ (a ++ [v]) = (sumZ a + v)%Z.
Proof. rewrite sumZ_app, sumZ_cons. change (sumZ []) with 0%Z. lia. Qed.

Lemma remainingMin_cons (b : Z * Z) (rest : list (Z * Z)) :
  remainingMin (b :: rest) = (fst b + remainingMin rest)%Z.
Proof.
  unfold remainingMin. simpl. now rewrite fold_left_add_shift.
Qed.

Lemma remainingMax_cons (b : Z * Z) (rest : list (Z * Z)) :
  remainingMax (b :: rest) = (snd b + remainingMax rest)%Z.
Proof.
  unfold remainingMax. simpl. now rewrite fold_left_add_shift.
Qed.

Lemma Zrange_empty (lo hi : Z) : (hi < lo)%Z -> Zrange lo hi = [].
Proof.
  intro H. unfold Zrange.
  replace (Z.to_nat (hi - lo + 1)) with 0%nat by lia. reflexivity.
Qed.

Lemma Zrange_step (lo hi : Z) :
  (lo <= hi)%Z -> Zrange lo hi = lo :: Zrange (lo + 1) hi.
Proof.
  intro H. unfold Zrange.
  replace (Z.to_nat (hi - lo + 1)) with (S (Z.to_nat (hi - (lo + 1) + 1)))
    by lia.
  simpl. f_equal.
  - lia.
  - rewrite <- seq_shift, map_map. apply map_ext. intro i. lia.
Qed.

Lemma In_Zrange (lo hi v : Z) : In v (Zrange lo hi) <-> (lo <= v <= hi)%Z.
Proof.
  unfold Zrange. rewrite in_map_iff. split.
  - intros [i [<- Hi]]. apply in_seq in Hi. lia.
  - intro H. exists (Z.to_nat (v - lo)). split; [lia|].
    apply in_seq. lia.
Qed.

(** Induction on a range by its first element. *)
Lemma Zrange_ind (hi : Z) (P : Z -> list Z -> Prop) :
  (forall lo, (hi < lo)%Z -> P lo []) ->
  (forall lo, (lo <= hi)%Z -> P (lo + 1)%Z (Zrange (lo + 1) hi) ->
              P lo (lo :: Zrange (lo + 1) hi)) ->
  forall lo, P lo (Zrange lo hi).
Proof.
  intros Hnil Hcons lo.
  remember (Z.to_nat (hi - lo + 1)) as n eqn:En.
  revert lo En. induction n as [|n IH]; intros lo En.
  - rewrite Zrange_empty by lia. apply Hnil. lia.
  - rewrite Zrange_step by lia. apply Hcons; [lia|]. apply IH. lia.
Qed.

(** ** The enumerators and their suffix forms *)

Lemma skipn_nth_error {A : Type} (l : list A) (i : nat) (x : A) :
  nth_error l i = Some x -> skipn i l = x :: skipn (S i) l.
Proof.
  revert i. induction l as [|a l IH]; intros [|i] H; simpl in H; try discriminate.
  - injection H as ->. reflexivity.
  - apply (IH i H).
Qed.

Lemma skipn_nil_iff {A : Type} (l : list A) (i : nat) :
  skipn i l = [] <-> (length l <= i)%nat.
Proof.
  revert i. induction l as [|a l IH]; intros [|i]; simpl; split; intro H;
    try reflexivity; try lia; try discriminate.
  - apply IH in H. lia.
  - apply IH. lia.
Qed.

Lemma pruned_from_last (lo hi : Z) (acc : list Z) :
  pruned_from [(lo, hi)] acc
  = if ((100 - sumZ acc >=? lo) && (100 - sumZ acc <=? hi))%Z
    then [acc ++ [(100 - sumZ acc)%Z]] else [].
Proof. reflexivity. Qed.

Lemma pruned_from_inner (lo hi : Z) (rest : list (Z * Z)) (acc : list Z) :
  rest <> [] ->
  pruned_from ((lo, hi) :: rest) acc
  = pruned_loop (sumZ acc) rest (fun v => pruned_from rest (acc ++ [v]))
                (Zrange lo hi).
Proof. destruct rest; [congruence|reflexivity]. Qed.

Lemma generateCombinations_rec_suffix (depth : nat) :
  forall (bounds : list (Z * Z)) (idx : nat) (acc : list Z),
    (idx < length bounds)%nat ->
    (length bounds - idx <= depth)%nat ->
    App.generateCombinations_rec depth bounds idx acc
    = Some (pruned_from (skipn idx bounds) acc).
Proof.
  induction depth as [|depth IH]; intros bounds idx acc Hidx Hdepth; [lia|].
  destruct (nth_error bounds idx) as [[lo hi]|] eqn:Enth.
  2:{ apply nth_error_None in Enth. lia. }
  rewrite (skipn_nth_error _ _ _ Enth).
  cbn [App.generateCombinations_rec]. rewrite Enth.
  destruct (Z.of_nat idx =? Z.of_nat (length bounds) - 1)%Z eqn:Elast.
  - apply Z.eqb_eq in Elast.
    assert (Hnil : skipn (S idx) bounds = []) by (apply skipn_nil_iff; lia).
    rewrite Hnil, pruned_from_last.
    destruct ((100 - sumZ acc >=? lo) && (100 - sumZ acc <=? hi))%Z;
      reflexivity.
  - apply Z.eqb_neq in Elast.
    assert (Hrest : skipn (S idx) bounds <> []).
    { intro E. apply skipn_nil_iff in E. lia. }
    rewrite (pruned_from_inner _ _ _ _ Hrest).
    replace (idx + 1)%nat with (S idx) by lia.
    fold (remainingMin (skipn (S idx) bounds)).
    fold (remainingMax (skipn (S idx) bounds)).
    generalize (Zrange lo hi) as vs.
    induction vs as [|v vs IHvs]; [reflexivity|].
    cbn [pruned_loop].
    destruct (sumZ acc + v >? 100)%Z; [reflexivity|].
    destruct (sumZ acc + v + remainingMax (skipn (S idx) bounds) <? 100)%Z;
      [exact IHvs|].
    destruct (sumZ acc + v + remainingMin (skipn (S idx) bounds) >? 100)%Z;
      [exact IHvs|].
    rewrite IH by lia.
    rewrite IHvs. reflexivity.
Qed.

Lemma generateCombinations_suffix (bounds : list (Z * Z)) :
  bounds <> [] ->
  App.generateCombinations bounds = Some (pruned_from bounds []).
Proof.
  intro Hne. unfold App.generateCombinations.
  rewrite generateCombinations_rec_suffix.
  - reflexivity.
  - destruct bounds; [congruence|simpl; lia].
  - lia.
Qed.

Lemma helper_suffix (depth : nat) :
  forall (bounds : list (Z * Z)) (index : nat) (combo : list Z),
    (index <= length bounds)%nat ->
    (length bounds - index < depth)%nat ->
    Legacy.helper depth bounds index combo
    = naive_from (skipn index bounds) combo.
Proof.
  induction depth as [|depth IH]; intros bounds index combo Hidx Hdepth;
    [lia|].
  cbn [Legacy.helper].
  destruct (index =? length bounds)%nat eqn:Eend.
  - apply Nat.eqb_eq in Eend.
    assert (Hnil : skipn index bounds = []) by (apply skipn_nil_iff; lia).
    rewrite Hnil. reflexivity.
  - apply Nat.eqb_neq in Eend.
    destruct (nth_error bounds index) as [[lo hi]|] eqn:Enth.
    2:{ apply nth_error_None in Enth. lia. }
    rewrite (skipn_nth_error _ _ _ Enth). cbn [naive_from].
    apply flat_map_ext. intro i.
    replace (index + 1)%nat with (S index) by lia.
    apply IH; lia.
Qed.

Lemma Legacy_generateCombinations_suffix (bounds : list (Z * Z)) :
  Legacy.generateCombinations bounds = naive_from bounds [].
Proof.
  unfold Legacy.generateCombinations.
  rewrite helper_suffix by lia. reflexivity.
Qed.

(** ** What the two enumerators yield *)

Lemma within_bounds_sum (rest : list (Z * Z)) (q : list Z) :
  within_bounds rest q ->
  (remainingMin rest <= sumZ q <= remainingMax rest)%Z.
Proof.
  induction 1 as [|b v rest q Hb _ IH].
  - unfold remainingMin, remainingMax, sumZ. simpl. lia.
  - rewrite remainingMin_cons, remainingMax_cons, sumZ_cons. lia.
Qed.

Lemma remainingMin_nonneg (rest : list (Z * Z)) :
  Forall (fun b => (0 <= fst b)%Z) rest -> (0 <= remainingMin rest)%Z.
Proof.
  induction 1 as [|b rest Hb _ IH].
  - unfold remainingMin. simpl. lia.
  - rewrite remainingMin_cons. lia.
Qed.

(** The cross-product enumerator yields exactly the vectors within the
    bounds that sum to 100. *)
Lemma naive_from_spec (rest : list (Z * Z)) :
  forall (combo p : list Z),
    In p (naive_from rest combo) <->
    exists q, p = combo ++ q /\ within_bounds rest q /\ sumZ p = 100%Z.
Proof.
  induction rest as [|[lo hi] rest IH]; intros combo p; cbn [naive_from].
  - destruct (sumZ combo =? 100)%Z eqn:E; simpl.
    + apply Z.eqb_eq in E. split.
      * intros [<-|[]]. exists []. rewrite app_nil_r.
        repeat split; [constructor|exact E].
      * intros [q [-> [Hq _]]]. inversion Hq. rewrite app_nil_r. now left.
    + apply Z.eqb_neq in E. split; [intros []|].
      intros [q [-> [Hq Hs]]]. inversion Hq; subst.
      rewrite app_nil_r in Hs. contradiction.
  - rewrite in_flat_map. split.
    + intros [i [Hi Hp]]. apply In_Zrange in Hi. apply IH in Hp.
      destruct Hp as [q [-> [Hq Hs]]]. exists (i :: q).
      rewrite <- app_assoc in *. simpl in *.
      repeat split; [constructor; simpl; auto|exact Hs].
    + intros [q [-> [Hq Hs]]]. inversion Hq as [|b v r q' Hv Hq']; subst.
      simpl in Hv. exists v. split; [apply In_Zrange; exact Hv|].
      apply IH. exists q'. rewrite <- app_assoc. simpl. auto.
Qed.

Lemma naive_from_nil (rest : list (Z * Z)) (combo : list Z) :
  (forall q, within_bounds rest q -> (sumZ combo + sumZ q)%Z <> 100%Z) ->
  naive_from rest combo = [].
Proof.
  intro H. destruct (naive_from rest combo) as [|p l] eqn:E; [reflexivity|].
  assert (Hp : In p (naive_from rest combo)) by (rewrite E; now left).
  apply naive_from_spec in Hp. destruct Hp as [q [-> [Hq Hs]]].
  rewrite sumZ_app in Hs. destruct (H q Hq Hs).
Qed.

Lemma in_pruned_loop (s : Z) (rest : list (Z * Z)) (k : Z -> list (list Z))
  (vs : list Z) (p : list Z) :
  In p (pruned_loop s rest k vs) -> exists v, In v vs /\ In p (k v).
Proof.
  induction vs as [|v vs IH]; cbn [pruned_loop]; [intros []|].
  destruct (s + v >? 100)%Z; [intros []|].
  destruct (s + v + remainingMax rest <? 100)%Z.
  { intro H. destruct (IH H) as [w [Hw Hp]]. exists w. simpl; auto. }
  destruct (s + v + remainingMin rest >? 100)%Z.
  { intro H. destruct (IH H) as [w [Hw Hp]]. exists w. simpl; auto. }
  intro H. apply in_app_or in H. destruct H as [H|H].
  - exists v. simpl; auto.
  - destruct (IH H) as [w [Hw Hp]]. exists w. simpl; auto.
Qed.

(** Every vector of the pruned enumerator extends [acc] within the bounds
    and sums to 100. *)
Lemma pruned_from_sound (suffix : list (Z * Z)) :
  forall (acc p : list Z),
    In p (pruned_from suffix acc) ->
    exists q, p = acc ++ q /\ within_bounds suffix q /\ sumZ p = 100%Z.
Proof.
  induction suffix as [|[lo hi] rest IH]; intros acc p Hp; [destruct Hp|].
  destruct rest as [|b rest].
  - rewrite pruned_from_last in Hp.
    destruct ((100 - sumZ acc >=? lo) && (100 - sumZ acc <=? hi))%Z eqn:E;
      [|destruct Hp].
    destruct Hp as [<-|[]]. apply andb_prop in E. destruct E as [E1 E2].
    apply Z.geb_le in E1. apply Z.leb_le in E2.
    exists [(100 - sumZ acc)%Z]. rewrite sumZ_snoc.
    split; [reflexivity|]. split; [|lia].
    constructor; [cbn [fst snd]; lia|constructor].
  - rewrite pruned_from_inner in Hp by discriminate.
    apply in_pruned_loop in Hp. destruct Hp as [v [Hv Hp]].
    apply In_Zrange in Hv. apply IH in Hp.
    destruct Hp as [q [-> [Hq Hs]]]. exists (v :: q).
    rewrite <- app_assoc in *. simpl in *.
    repeat split; [constructor; simpl; auto|exact Hs].
Qed.

(** Case analysis on the integer tests of a goal. *)
Ltac zcases :=
  rewrite ?Z.geb_leb, ?Z.gtb_ltb;
  repeat match goal with
  | |- context [(?a <=? ?b)%Z] => destruct (Z.leb_spec a b)
  | |- context [(?a <? ?b)%Z] => destruct (Z.ltb_spec a b)
  | |- context [(?a =? ?b)%Z] => destruct (Z.eqb_spec a b)
  end;
  cbn [andb orb negb app].

Lemma flat_map_nil {A B : Type} (f : A -> list B) (l : list A) :
  (forall x, In x l -> f x = []) -> flat_map f l = [].
Proof.
  induction l as [|a l IH]; intro H; simpl; [reflexivity|].
  rewrite (H a) by (now left). apply IH. intros x Hx. apply H. now right.
Qed.

(** At the last position the forced value is the only one of the range that
    completes the sum. *)
Lemma naive_from_last (hi : Z) (acc : list Z) :
  forall lo, naive_from [(lo, hi)] acc = pruned_from [(lo, hi)] acc.
Proof.
  intro lo. rewrite pruned_from_last. cbn [naive_from].
  revert lo.
  apply (Zrange_ind hi (fun lo l =>
    flat_map (fun i => if (sumZ (acc ++ [i]) =? 100)%Z
                       then [acc ++ [i]] else []) l
    = if ((100 - sumZ acc >=? lo) && (100 - sumZ acc <=? hi))%Z
      then [acc ++ [(100 - sumZ acc)%Z]] else [])).
  - intros lo Hlt. simpl. zcases; try reflexivity; lia.
  - intros lo Hle IH. cbn [flat_map]. rewrite IH, sumZ_snoc.
    zcases; try reflexivity; try lia.
    replace (100 - sumZ acc)%Z with lo by lia. reflexivity.
Qed.

(** With non-negative lower bounds after the current position, the pruned
    loop drops only values that no vector of the cross product uses. *)
Lemma pruned_loop_naive (acc : list Z) (rest : list (Z * Z)) (hi : Z) :
  Forall (fun b => (0 <= fst b)%Z) rest ->
  (forall acc', pruned_from rest acc' = naive_from rest acc') ->
  forall lo,
    pruned_loop (sumZ acc) rest (fun v => pruned_from rest (acc ++ [v]))
                (Zrange lo hi)
    = flat_map (fun i => naive_from rest (acc ++ [i])) (Zrange lo hi).
Proof.
  intros Hmin IH. pose proof (remainingMin_nonneg _ Hmin) as Hnn.
  apply (Zrange_ind hi (fun lo l =>
    pruned_loop (sumZ acc) rest (fun v => pruned_from rest (acc ++ [v])) l
    = flat_map (fun i => naive_from rest (acc ++ [i])) l)).
  - reflexivity.
  - intros lo Hle IHr. cbn [pruned_loop flat_map].
    assert (Hdead : forall v,
               (100 < sumZ acc + v + remainingMin rest
                \/ sumZ acc + v + remainingMax rest < 100)%Z ->
               naive_from rest (acc ++ [v]) = []).
    { intros v Hv. apply naive_from_nil. intros q Hq.
      apply within_bounds_sum in Hq. rewrite sumZ_snoc. lia. }
    zcases.
    + symmetry. rewrite Hdead by lia. apply flat_map_nil.
      intros v Hv. apply In_Zrange in Hv. apply Hdead. lia.
    + rewrite Hdead by lia. exact IHr.
    + rewrite Hdead by lia. exact IHr.
    + rewrite IH, IHr. reflexivity.
Qed.

Lemma pruned_from_naive (suffix : list (Z * Z)) :
  suffix <> [] ->
  Forall (fun b => (0 <= fst b)%Z) (tl suffix) ->
  forall acc, pruned_from suffix acc = naive_from suffix acc.
Proof.
  induction suffix as [|[lo hi] rest IH]; intros Hne Hmin acc; [congruence|].
  destruct rest as [|b rest].
  - symmetry. apply naive_from_last.
  - rewrite pruned_from_inner by discriminate. cbn [naive_from].
    simpl in Hmin. apply pruned_loop_naive; [exact Hmin|].
    apply IH; [discriminate|]. inversion Hmin; assumption.
Qed.

(** ** C2, C3: the combination enumerator *)

(** C2.  For every non-empty list of bounds, the enumerator of [/optimize]
    returns, and every percentage vector it yields sums to exactly 100. *)
Theorem generateCombinations_sum_100 (bounds : list (Z * Z)) :
  bounds <> [] ->
  exists combos,
    App.generateCombinations bounds = Some combos /\
    forall p, In p combos -> sumZ p = 100%Z.
Proof.
  intro Hne. exists (pruned_from bounds []).
  split; [apply generateCombinations_suffix; exact Hne|].
  intros p Hp. apply pruned_from_sound in Hp.
  destruct Hp as [q [_ [_ Hs]]]. exact Hs.
Qed.

Lemma generateCombinations_sum_100_witness :
  exists combos,
    App.generateCombinations [(0, 100); (20, 60); (10, 30)]%Z = Some combos /\
    forall p, In p combos -> sumZ p = 100%Z.
Proof.
  apply (generateCombinations_sum_100 [(0, 100); (20, 60); (10, 30)]%Z).
  discriminate.
Defined.

(** C3.  For every non-empty list of bounds [[min_i, max_i]], the enumerator
    of [/optimize] returns, and every vector it yields has
    [min_i <= p_i <= max_i] at every position, the last one included. *)
Theorem generateCombinations_within_bounds (bounds : list (Z * Z)) :
  bounds <> [] ->
  exists combos,
    App.generateCombinations bounds = Some combos /\
    forall p, In p combos -> within_bounds bounds p.
Proof.
  intro Hne. exists (pruned_from bounds []).
  split; [apply generateCombinations_suffix; exact Hne|].
  intros p Hp. apply pruned_from_sound in Hp.
  destruct Hp as [q [-> [Hq _]]]. exact Hq.
Qed.

Lemma generateCombinations_within_bounds_witness :
  exists combos,
    App.generateCombinations [(0, 100); (20, 60); (10, 30)]%Z = Some combos /\
    forall p, In p combos ->
              within_bounds [(0, 100); (20, 60); (10, 30)]%Z p.
Proof.
  apply (generateCombinations_within_bounds
           [(0, 100); (20, 60); (10, 30)]%Z).
  discriminate.
Defined.

(** ** The sanitised bounds *)

Lemma Math_min_pair (x y : Q) :
  Math_min [Fin x; Fin y] = Fin (if Qltb y x then y else x).
Proof. unfold Math_min. simpl. destruct (Qltb y x); reflexivity. Qed.

Lemma Math_max_pair (x y : Q) :
  Math_max [Fin x; Fin y] = Fin (if Qltb x y then y else x).
Proof. unfold Math_max. simpl. destruct (Qltb x y); reflexivity. Qed.

Lemma isFinite_finite_or (d : Q) (a : number) :
  (if isFinite a then a else Fin d) = Fin (finite_or d a).
Proof. destruct a; reflexivity. Qed.

(** Case analysis on the comparisons of rationals of a goal, the innermost
    first. *)
Ltac no_test t :=
  lazymatch t with
  | context [Qltb] => fail
  | context [Qle_bool] => fail
  | context [Qeq_bool] => fail
  | _ => idtac
  end.

Ltac qcases :=
  repeat match goal with
  | |- context [Qltb ?a ?b] =>
      no_test a; no_test b;
      let E := fresh "E" in destruct (Qltb a b) eqn:E
  | |- context [Qle_bool ?a ?b] =>
      no_test a; no_test b;
      let E := fresh "E" in destruct (Qle_bool a b) eqn:E
  | |- context [Qeq_bool ?a ?b] =>
      no_test a; no_test b;
      let E := fresh "E" in destruct (Qeq_bool a b) eqn:E
  end;
  qprop.

Lemma clamp_percent_range (x : Q) :
  (0 <= clamp_percent x <= 100)%Q.
Proof. unfold clamp_percent. qcases; lra. Qed.

Lemma clamp_percent_mono (x y : Q) :
  (x <= y)%Q -> (clamp_percent x <= clamp_percent y)%Q.
Proof. intro H. unfold clamp_percent. qcases; lra. Qed.

Lemma round_half_up_mono (x y : Q) :
  (x <= y)%Q -> (round_half_up x <= round_half_up y)%Z.
Proof. intro H. apply Qfloor_resp_le. lra. Qed.

Lemma round_half_up_range (x : Q) :
  (0 <= x <= 100)%Q -> (0 <= round_half_up x <= 100)%Z.
Proof.
  intros [H0 H100]. split.
  - change 0%Z with (round_half_up 0). apply round_half_up_mono, H0.
  - change 100%Z with (round_half_up 100). apply round_half_up_mono, H100.
Qed.

Lemma round_half_up_comp (x y : Q) :
  (x == y)%Q -> round_half_up x = round_half_up y.
Proof. intro H. unfold round_half_up. apply Qfloor_comp. lra. Qed.

(** The pair [sanitizeBounds] returns, computed. *)
Lemma sanitizeBounds_pair (b : Body.blend) :
  App.sanitizeBounds b
  = (of_int (fst (sanitized_pair (Body.min b) (Body.max b))),
     of_int (snd (sanitized_pair (Body.min b) (Body.max b)))).
Proof.
  unfold App.sanitizeBounds, sanitized_pair.
  rewrite !isFinite_finite_or.
  set (m := finite_or 0 (Body.min b)). set (M := finite_or 100 (Body.max b)).
  rewrite !Math_min_pair, !Math_max_pair.
  cbn [fst snd Math_round]. unfold of_int. f_equal; f_equal; f_equal.
  - apply round_half_up_comp. unfold clamp_percent. qcases; lra.
  - fold (round_half_up
            (if Qltb (if Qltb 0 (if Qltb m 100 then m else 100)
                      then if Qltb m 100 then m else 100 else 0)
                     (if Qltb M 100 then M else 100)
             then if Qltb M 100 then M else 100
             else if Qltb 0 (if Qltb m 100 then m else 100)
                  then if Qltb m 100 then m else 100 else 0)).
    assert (Em : ((if Qltb 0 (if Qltb m 100 then m else 100)
                   then if Qltb m 100 then m else 100 else 0)
                  == clamp_percent m)%Q)
      by (unfold clamp_percent; qcases; lra).
    pose proof (clamp_percent_range m) as Rm.
    pose proof (clamp_percent_range M) as RM.
    destruct (Z.max_spec (round_half_up (clamp_percent m))
                         (round_half_up (clamp_percent M)))
      as [[Hlt ->]|[Hle ->]].
    + apply round_half_up_comp.
      assert (Hc : (clamp_percent m < clamp_percent M)%Q).
      { apply Qnot_le_lt. intro Hc.
        apply round_half_up_mono in Hc. lia. }
      revert Em Hc. unfold clamp_percent. qcases; intros; lra.
    + destruct (Qlt_le_dec (clamp_percent m) (clamp_percent M)) as [Hc|Hc].
      * assert (Heq : round_half_up (clamp_percent M)
                      = round_half_up (clamp_percent m)).
        { apply Qlt_le_weak, round_half_up_mono in Hc. lia. }
        rewrite <- Heq. apply round_half_up_comp.
        revert Em Hc. unfold clamp_percent. qcases; intros; lra.
      * apply round_half_up_comp.
        revert Em Hc. unfold clamp_percent. qcases; intros; lra.
Qed.

Lemma to_int_of_int (z : Z) : to_int (of_int z) = z.
Proof. apply Qfloor_Z. Qed.

Lemma sanitized_pair_range (min max : number) :
  (0 <= fst (sanitized_pair min max) <= snd (sanitized_pair min max))%Z /\
  (snd (sanitized_pair min max) <= 100)%Z.
Proof.
  unfold sanitized_pair. cbn [fst snd].
  pose proof (round_half_up_range _ (clamp_percent_range (finite_or 0 min))).
  pose proof (round_half_up_range _ (clamp_percent_range (finite_or 100 max))).
  lia.
Qed.

(** The integer bounds handed to the enumerator are the sanitised pairs. *)
Lemma intBounds_sanitized (blends : list Body.blend) :
  App.intBounds blends
  = map (fun b => sanitized_pair (Body.min b) (Body.max b)) blends.
Proof.
  unfold App.intBounds, App.minMaxBounds. rewrite map_map.
  apply map_ext. intro b. rewrite sanitizeBounds_pair. cbn [fst snd].
  rewrite !to_int_of_int. now destruct (sanitized_pair _ _).
Qed.

Lemma intBounds_range (blends : list Body.blend) :
  Forall (fun p => (0 <= fst p <= snd p)%Z /\ (snd p <= 100)%Z)
         (App.intBounds blends).
Proof.
  rewrite intBounds_sanitized. apply Forall_map, Forall_forall.
  intros b _. apply sanitized_pair_range.
Qed.

(** ** C4: the two enumerators on percentages *)

(** C4.  The pruned enumerator of [/optimize] yields the same vectors, in
    the same order, as the cross-product enumerator that keeps the vectors
    summing to 100: for every non-empty list of bounds that are percentages,
    and so for the bounds of every non-empty request, which are the only
    ones it is called with. *)
Theorem generateCombinations_refines_naive :
  (forall bounds : list (Z * Z),
     bounds <> [] -> percent_bounds bounds ->
     App.generateCombinations bounds
     = Some (Legacy.generateCombinations bounds)) /\
  (forall blends : list Body.blend,
     blends <> [] ->
     percent_bounds (App.intBounds blends) /\
     App.generateCombinations (App.intBounds blends)
     = Some (Legacy.generateCombinations (App.intBounds blends))).
Proof.
  assert (H : forall bounds : list (Z * Z),
            bounds <> [] -> percent_bounds bounds ->
            App.generateCombinations bounds
            = Some (Legacy.generateCombinations bounds)).
  { intros bounds Hne Hp.
    rewrite generateCombinations_suffix by exact Hne.
    rewrite Legacy_generateCombinations_suffix. f_equal.
    apply pruned_from_naive; [exact Hne|].
    destruct bounds as [|b bounds]; [constructor|].
    inversion Hp as [|? ? _ Hp']; subst. simpl.
    revert Hp'. apply Forall_impl. intros a Ha. lia. }
  split; [exact H|].
  intros blends Hne.
  assert (Hp : percent_bounds (App.intBounds blends)).
  { pose proof (intBounds_range blends) as R. revert R.
    apply Forall_impl. intros a Ha. lia. }
  split; [exact Hp|]. apply H; [|exact Hp].
  intro E. apply (f_equal (@length _)) in E.
  unfold App.intBounds, App.minMaxBounds in E. rewrite !length_map in E.
  destruct blends; [congruence|discriminate].
Qed.

Lemma generateCombinations_refines_naive_witness :
  App.generateCombinations [(0, 3); (98, 99); (0, 1)]%Z
  = Some (Legacy.generateCombinations [(0, 3); (98, 99); (0, 1)]%Z).
Proof.
  apply (proj1 generateCombinations_refines_naive
           [(0, 3); (98, 99); (0, 1)]%Z).
  - discriminate.
  - repeat constructor; simpl; lia.
Defined.

(** ** C10 and C8: the sanitised bounds *)

(** C10 as stated fails: [max: null] is not a number, yet it takes no
    default: [Number(null)] is 0, a finite number, and the upper bound is
    raised to the lower one.  The element is enumerated with the bounds
    [[30, 30]], not with [[30, 100]]. *)
Lemma null_max_not_defaulted :
  App.intBounds [Body.coerce noStrings nullMax] = [(30, 30)%Z] /\
  App.intBounds [Body.coerce noStrings nullMax] <> [(30, 100)%Z].
Proof. split; [reflexivity|discriminate]. Qed.

(** C10, amended.  Whatever the [min] and [max] fields of an element are,
    the pair used for the enumeration consists of two integers [min'] and
    [max'] with [0 <= min' <= max' <= 100]: the fields are read with
    [Number]; a [min] that is then not a finite number (a missing field,
    NaN, an infinity) counts as 0 and such a [max] as 100; both are clamped
    to [[0, 100]] and rounded, and [max'] is raised to at least [min'].  A
    field that [Number] reads as 0, as it does [null] and [false], takes no
    default: as [max] it gives the bounds [[min', min']]. *)
Theorem sanitizeBounds_invariant (StringToNumber : string -> number)
  (j : Body.json) :
  let b := Body.coerce StringToNumber j in
  let min := Json.Number StringToNumber (Body.json_min j) in
  let max := Json.Number StringToNumber (Body.json_max j) in
  let lo := round_half_up (clamp_percent (finite_or 0 min)) in
  let hi := round_half_up (clamp_percent (finite_or 100 max)) in
  App.sanitizeBounds b = (of_int lo, of_int (Z.max lo hi)) /\
  App.intBounds [b] = [(lo, Z.max lo hi)] /\
  (0 <= lo <= Z.max lo hi)%Z /\ (Z.max lo hi <= 100)%Z /\
  (isFinite min = false -> lo = 0%Z) /\
  (isFinite max = false -> Z.max lo hi = 100%Z) /\
  (Body.json_min j = Json.Undefined -> lo = 0%Z) /\
  (Body.json_max j = Json.Undefined -> Z.max lo hi = 100%Z) /\
  (max =~ $0 -> Z.max lo hi = lo) /\
  (In (Body.json_max j) [Json.Null; Json.Boolean false] ->
   Z.max lo hi = lo).
Proof.
  intros b min max lo hi.
  pose proof (sanitized_pair_range min max) as R.
  unfold sanitized_pair in R. cbn [fst snd] in R. fold lo hi in R.
  assert (Hmin : isFinite min = false -> lo = 0%Z).
  { intro H. subst lo. destruct min; try discriminate; reflexivity. }
  assert (Hmax : isFinite max = false -> Z.max lo hi = 100%Z).
  { intro H.
    assert (Hhi : hi = 100%Z)
      by (subst hi; destruct max; try discriminate; reflexivity).
    lia. }
  assert (Hzero : max =~ $0 -> Z.max lo hi = lo).
  { intro H.
    assert (Hhi : hi = 0%Z).
    { subst hi. destruct max as [q| | |]; try contradiction.
      change (q == 0)%Q in H. cbn [finite_or].
      unfold round_half_up, clamp_percent.
      destruct (Qltb q 0) eqn:E1; [reflexivity|].
      destruct (Qltb 100 q) eqn:E2; qprop; [lra|].
      assert (E : (q + (1 # 2) == 1 # 2)%Q) by lra.
      rewrite E. reflexivity. }
    lia. }
  split; [|split; [|split; [|split; [|split; [|split; [|split;
    [|split; [|split]]]]]]]].
  - unfold b. rewrite sanitizeBounds_pair. reflexivity.
  - unfold b. rewrite intBounds_sanitized. reflexivity.
  - lia.
  - lia.
  - exact Hmin.
  - exact Hmax.
  - intro E. apply Hmin. unfold min. now rewrite E.
  - intro E. apply Hmax. unfold max. now rewrite E.
  - exact Hzero.
  - intros [E|[E|[]]]; apply Hzero; unfold max; rewrite <- E; reflexivity.
Qed.

(** An element without [min] and [max] is enumerated over [[0, 100]]. *)
Lemma sanitizeBounds_invariant_witness :
  App.sanitizeBounds
    (Body.coerce noStrings
       {| Body.json_coal := "A"; Body.json_properties := fun _ => $0;
          Body.json_min := Json.Undefined; Body.json_max := Json.Undefined;
          Body.json_current := Json.Undefined; Body.json_cost := $0 |})
  = (of_int 0, of_int 100).
Proof.
  apply (sanitizeBounds_invariant noStrings
           {| Body.json_coal := "A"; Body.json_properties := fun _ => $0;
              Body.json_min := Json.Undefined;
              Body.json_max := Json.Undefined;
              Body.json_current := Json.Undefined; Body.json_cost := $0 |}).
Defined.

(** C8 as stated fails: a coal with [min = 70] and [max = 30] is enumerated
    with the bounds [[70, 70]], not with the sorted pair [[30, 70]]. *)
Lemma inverted_bounds_not_reordered :
  App.intBounds
    [{| Body.coal := "A"; Body.properties := fun _ => $0;
        Body.min := $70; Body.max := $30;
        Body.current := $0; Body.cost := $0 |}]
  = [(70, 70)%Z]
  /\
  App.intBounds
    [{| Body.coal := "A"; Body.properties := fun _ => $0;
        Body.min := $70; Body.max := $30;
        Body.current := $0; Body.cost := $0 |}]
  <> [(30, 70)%Z].
Proof. split; [reflexivity|discriminate]. Qed.

(** C8, amended.  For every coal whose supplied [min] and [max] are inverted
    ([min > max]), the lower bound is [min] clamped to [[0, 100]] and
    rounded, and the upper bound is raised to it: the bounds used for
    the enumeration are the pair [[min', min']]; the pair is not
    reordered. *)
Theorem sanitizeBounds_inverted (b : Body.blend) (qmin qmax : Q) :
  Body.min b = Fin qmin ->
  Body.max b = Fin qmax ->
  (qmax < qmin)%Q ->
  let lo := round_half_up (clamp_percent qmin) in
  App.sanitizeBounds b = (of_int lo, of_int lo) /\
  App.intBounds [b] = [(lo, lo)].
Proof.
  intros Hmin Hmax Hinv lo.
  assert (Hle : (round_half_up (clamp_percent qmax) <= lo)%Z).
  { apply round_half_up_mono, clamp_percent_mono. lra. }
  assert (E : sanitized_pair (Body.min b) (Body.max b) = (lo, lo)).
  { unfold sanitized_pair. rewrite Hmin, Hmax. cbn [finite_or]. fold lo.
    now rewrite Z.max_l by exact Hle. }
  split.
  - rewrite sanitizeBounds_pair, E. reflexivity.
  - rewrite intBounds_sanitized. cbn [map]. now rewrite E.
Qed.

Lemma sanitizeBounds_inverted_witness :
  let b := {| Body.coal := "A"; Body.properties := fun _ => $0;
              Body.min := $70; Body.max := $30;
              Body.current := $0; Body.cost := $0 |} in
  App.sanitizeBounds b = (of_int 70, of_int 70) /\
  App.intBounds [b] = [(70, 70)%Z].
Proof.
  intro b. apply (sanitizeBounds_inverted b 70 30); reflexivity.
Defined.

(** ** Numbers as values *)

#[export] Instance num_eq_Equivalence : Equivalence num_eq.
Proof.
  split.
  - intros [x| | |]; simpl; auto. reflexivity.
  - intros [x| | |] [y| | |]; simpl; auto. intro H. symmetry. exact H.
  - intros [x| | |] [y| | |] [z| | |]; simpl; auto; try contradiction.
    intros H1 H2. rewrite H1. exact H2.
Qed.

#[export] Instance Qltb_Proper : Proper (Qeq ==> Qeq ==> eq) Qltb.
Proof.
  intros x x' Hx y y' Hy. unfold Qltb. now rewrite Hx, Hy.
Qed.

(** Two numbers with the same value: either both the same rational, or the
    same non-finite number. *)
Ltac num_cases :=
  repeat match goal with
  | H : num_eq ?a ?b |- _ =>
      destruct a, b; simpl in H; try contradiction
  end.

#[export] Instance neg_Proper : Proper (num_eq ==> num_eq) neg.
Proof.
  intros a a' Ha. num_cases; simpl; auto. now rewrite Ha.
Qed.

#[export] Instance add_Proper : Proper (num_eq ==> num_eq ==> num_eq) add.
Proof.
  intros a a' Ha b b' Hb. num_cases; simpl; auto. now rewrite Ha, Hb.
Qed.

#[export] Instance sub_Proper : Proper (num_eq ==> num_eq ==> num_eq) sub.
Proof.
  intros a a' Ha b b' Hb. unfold sub. now rewrite Ha, Hb.
Qed.

Lemma scale_inf_Proper (x x' : Q) (i : number) :
  (x == x')%Q -> scale_inf x i = scale_inf x' i.
Proof.
  intro H. unfold scale_inf.
  assert (E1 : Qeq_bool x 0 = Qeq_bool x' 0) by (now rewrite H).
  assert (E2 : Qltb 0 x = Qltb 0 x') by (now rewrite H).
  now rewrite E1, E2.
Qed.

#[export] Instance mul_Proper : Proper (num_eq ==> num_eq ==> num_eq) mul.
Proof.
  intros a a' Ha b b' Hb. num_cases; simpl; auto;
    try (rewrite (scale_inf_Proper _ _ _ Ha); reflexivity);
    try (rewrite (scale_inf_Proper _ _ _ Hb); reflexivity).
  now rewrite Ha, Hb.
Qed.

#[export] Instance div_Proper : Proper (num_eq ==> num_eq ==> num_eq) div.
Proof.
  intros a a' Ha b b' Hb. num_cases; simpl; auto; try reflexivity;
    try (assert (E : Qltb q 0 = Qltb q0 0) by (now rewrite Hb);
         rewrite E; reflexivity).
  assert (E1 : Qeq_bool q 0 = Qeq_bool q0 0) by (now rewrite Hb).
  assert (E2 : Qeq_bool q1 0 = Qeq_bool q2 0) by (now rewrite Ha).
  assert (E3 : Qltb 0 q1 = Qltb 0 q2) by (now rewrite Ha).
  rewrite E1, E2, E3.
  destruct (Qeq_bool q0 0).
  - destruct (Qeq_bool q2 0); [reflexivity|].
    destruct (Qltb 0 q2); reflexivity.
  - simpl. now rewrite Ha, Hb.
Qed.

#[export] Instance lt_Proper : Proper (num_eq ==> num_eq ==> eq) lt.
Proof.
  intros a a' Ha b b' Hb. num_cases; simpl; auto. now rewrite Ha, Hb.
Qed.

#[export] Instance le_Proper : Proper (num_eq ==> num_eq ==> eq) le.
Proof.
  intros a a' Ha b b' Hb. num_cases; simpl; auto. now rewrite Ha, Hb.
Qed.

#[export] Instance ge_Proper : Proper (num_eq ==> num_eq ==> eq) ge.
Proof. intros a a' Ha b b' Hb. unfold ge. now rewrite Ha, Hb. Qed.

#[export] Instance strict_eq_Proper :
  Proper (num_eq ==> num_eq ==> eq) strict_eq.
Proof.
  intros a a' Ha b b' Hb. num_cases; simpl; auto. now rewrite Ha, Hb.
Qed.

#[export] Instance truthy_Proper : Proper (num_eq ==> eq) truthy.
Proof.
  intros a a' Ha. num_cases; simpl; auto. now rewrite Ha.
Qed.

#[export] Instance or_else_Proper :
  Proper (num_eq ==> num_eq ==> num_eq) or_else.
Proof.
  intros a a' Ha b b' Hb. unfold or_else. rewrite Ha.
  destruct (truthy a'); assumption.
Qed.

Lemma strict_eq_num_eq (a b : number) : (a === b) = true -> a =~ b.
Proof.
  destruct a, b; simpl; try discriminate; auto. apply Qeq_bool_eq.
Qed.

(** ** Comparisons of numbers *)

Lemma le_trans (a b c : number) :
  (a <=? b) = true -> (b <=? c) = true -> (a <=? c) = true.
Proof.
  destruct a, b, c; simpl; try congruence. intros H1 H2. qprop. lra.
Qed.

Lemma le_not_eq_lt (a b : number) :
  (a <=? b) = true -> (a === b) = false -> (a <? b) = true.
Proof.
  destruct a, b; simpl; try congruence. intros H1 H2. qprop. lra.
Qed.

(** ** The sanitised values of a request *)

Lemma at_finite (l : list number) (i : nat) :
  all_finite l -> (i < length l)%nat -> isFinite (at_ l i) = true.
Proof.
  intros H Hi. unfold at_.
  apply (proj1 (Forall_forall _ l) H). apply nth_In. exact Hi.
Qed.

Lemma oxideValues_rows (blends : list Body.blend) (val : list number) :
  In val (App.oxideValues blends) ->
  all_finite val /\ length val = 9%nat.
Proof.
  unfold App.oxideValues. rewrite in_map_iff. intros [b [<- _]]. split.
  - apply Forall_map, Forall_forall. intros col _.
    destruct (Body.properties b col); reflexivity.
  - reflexivity.
Qed.

Lemma costsPerTon_finite (blends : list Body.blend) :
  all_finite (App.costsPerTon blends).
Proof.
  apply Forall_map, Forall_forall. intros b _.
  destruct (Body.cost b); reflexivity.
Qed.

Lemma gcvValue_finite (blends : list Body.blend) :
  all_finite (App.gcvValue blends).
Proof.
  apply Forall_map, Forall_forall. intros b _.
  destruct (Body.properties b "GCV"); reflexivity.
Qed.

(** ** The candidates of a request *)

Lemma intBounds_length (blends : list Body.blend) :
  length (App.intBounds blends) = length blends.
Proof. unfold App.intBounds, App.minMaxBounds. now rewrite !length_map. Qed.

Lemma generateCombinations_Some (bounds : list (Z * Z))
  (combos : list (list Z)) :
  App.generateCombinations bounds = Some combos ->
  bounds <> [] /\ combos = pruned_from bounds [].
Proof.
  intro H. destruct bounds as [|b bounds]; [discriminate|].
  split; [discriminate|].
  rewrite generateCombinations_suffix in H by discriminate.
  now injection H.
Qed.

(** ** [Math.max], [Math.min] and [indexOf] *)

Lemma le_refl_number (a : number) : a <> NaN -> (a <=? a) = true.
Proof. destruct a; simpl; try congruence. intros _. qprop. lra. Qed.

Lemma strict_eq_refl_number (a : number) : a <> NaN -> (a === a) = true.
Proof. destruct a; simpl; try congruence. intros _. apply Qeq_bool_refl. Qed.

Lemma strict_eq_NaN_r (a : number) : (a === NaN) = false.
Proof. destruct a; reflexivity. Qed.

Lemma max_step_number (hi x : number) :
  hi <> NaN -> x <> NaN ->
  max_step hi x <> NaN /\
  (hi <=? max_step hi x) = true /\ (x <=? max_step hi x) = true /\
  (max_step hi x = hi \/ max_step hi x = x).
Proof.
  intros Hhi Hx. destruct hi as [h| | |], x as [x| | |]; try congruence;
    cbn [max_step lt]; try (repeat split; auto; discriminate).
  - destruct (Qltb h x) eqn:E; cbn [le]; qprop; repeat split; auto;
      try discriminate; qprop; lra.
  - repeat split; auto; try discriminate. cbn. qprop. lra.
  - repeat split; auto; try discriminate. cbn. qprop. lra.
Qed.

Lemma min_step_number (lo x : number) :
  lo <> NaN -> x <> NaN ->
  min_step lo x <> NaN /\
  (min_step lo x <=? lo) = true /\ (min_step lo x <=? x) = true /\
  (min_step lo x = lo \/ min_step lo x = x).
Proof.
  intros Hlo Hx. destruct lo as [h| | |], x as [x| | |]; try congruence;
    cbn [min_step lt]; try (repeat split; auto; discriminate).
  - destruct (Qltb x h) eqn:E; cbn [le]; qprop; repeat split; auto;
      try discriminate; qprop; lra.
  - repeat split; auto; try discriminate. cbn. qprop. lra.
  - repeat split; auto; try discriminate. cbn. qprop. lra.
Qed.

Lemma fold_max_step_number (l : list number) :
  no_NaN l ->
  forall hi, hi <> NaN ->
    let m := fold_left max_step l hi in
    m <> NaN /\ (hi <=? m) = true /\
    (forall x, In x l -> (x <=? m) = true) /\ (m = hi \/ In m l).
Proof.
  induction 1 as [|x l Hx Hl IH]; intros hi Hhi; simpl.
  - repeat split; auto using le_refl_number; intros x [].
  - destruct (max_step_number hi x Hhi Hx) as [F [L1 [L2 C]]].
    destruct (IH _ F) as [F' [L' [A' C']]].
    repeat split; auto.
    + eapply le_trans; eauto.
    + intros y [<-|Hy]; [eapply le_trans; eauto|auto].
    + destruct C' as [->|Hin]; [|auto]. destruct C as [->| ->]; auto.
Qed.

Lemma fold_min_step_number (l : list number) :
  no_NaN l ->
  forall lo, lo <> NaN ->
    let m := fold_left min_step l lo in
    m <> NaN /\ (m <=? lo) = true /\
    (forall x, In x l -> (m <=? x) = true) /\ (m = lo \/ In m l).
Proof.
  induction 1 as [|x l Hx Hl IH]; intros lo Hlo; simpl.
  - repeat split; auto using le_refl_number; intros x [].
  - destruct (min_step_number lo x Hlo Hx) as [F [L1 [L2 C]]].
    destruct (IH _ F) as [F' [L' [A' C']]].
    repeat split; auto.
    + eapply le_trans; eauto.
    + intros y [<-|Hy]; [eapply le_trans; eauto|auto].
    + destruct C' as [->|Hin]; [|auto]. destruct C as [->| ->]; auto.
Qed.

(** [Math.max] of a non-empty list without NaN is one of its elements, and
    no element is above it; the elements may be infinite. *)
Lemma Math_max_number (l : list number) :
  l <> [] -> no_NaN l ->
  Math_max l <> NaN /\ In (Math_max l) l /\
  (forall x, In x l -> (x <=? Math_max l) = true).
Proof.
  intros Hne Hl. destruct l as [|x l]; [congruence|].
  inversion Hl as [|? ? Hx Hl']; subst. unfold Math_max. cbn [fold_left].
  assert (E : max_step NegInf x = x) by (destruct x; try congruence; reflexivity).
  rewrite E.
  destruct (fold_max_step_number l Hl' x Hx) as [F' [L' [A' C']]].
  repeat split; auto.
  - destruct C' as [->|Hin]; simpl; auto.
  - intros y [<-|Hy]; auto.
Qed.

Lemma Math_min_number (l : list number) :
  l <> [] -> no_NaN l ->
  Math_min l <> NaN /\ In (Math_min l) l /\
  (forall x, In x l -> (Math_min l <=? x) = true).
Proof.
  intros Hne Hl. destruct l as [|x l]; [congruence|].
  inversion Hl as [|? ? Hx Hl']; subst. unfold Math_min. cbn [fold_left].
  assert (E : min_step PosInf x = x) by (destruct x; try congruence; reflexivity).
  rewrite E.
  destruct (fold_min_step_number l Hl' x Hx) as [F' [L' [A' C']]].
  repeat split; auto.
  - destruct C' as [->|Hin]; simpl; auto.
  - intros y [<-|Hy]; auto.
Qed.

(** With a NaN among its arguments [Math.max] is NaN, and so is
    [Math.min]. *)
Lemma fold_max_step_NaN (l : list number) : fold_left max_step l NaN = NaN.
Proof. induction l as [|x l IH]; simpl; auto. Qed.

Lemma fold_min_step_NaN (l : list number) : fold_left min_step l NaN = NaN.
Proof. induction l as [|x l IH]; simpl; auto. Qed.

Lemma fold_max_step_has_NaN (l : list number) (hi : number) :
  In NaN l -> fold_left max_step l hi = NaN.
Proof.
  revert hi. induction l as [|x l IH]; intros hi Hin; [destruct Hin|].
  destruct Hin as [->|Hin]; simpl.
  - replace (max_step hi NaN) with NaN by (destruct hi; reflexivity).
    apply fold_max_step_NaN.
  - apply IH, Hin.
Qed.

Lemma fold_min_step_has_NaN (l : list number) (lo : number) :
  In NaN l -> fold_left min_step l lo = NaN.
Proof.
  revert lo. induction l as [|x l IH]; intros lo Hin; [destruct Hin|].
  destruct Hin as [->|Hin]; simpl.
  - replace (min_step lo NaN) with NaN by (destruct lo; reflexivity).
    apply fold_min_step_NaN.
  - apply IH, Hin.
Qed.

Lemma not_no_NaN (l : list number) : ~ no_NaN l -> In NaN l.
Proof.
  induction l as [|x l IH]; intro H.
  - destruct H. constructor.
  - destruct x as [q| | |]; try (right; apply IH; intro Hl; apply H;
      constructor; [discriminate|exact Hl]).
    now left.
Qed.

Lemma Math_max_NaN (l : list number) : ~ no_NaN l -> Math_max l = NaN.
Proof. intro H. apply fold_max_step_has_NaN, not_no_NaN, H. Qed.

Lemma Math_min_NaN (l : list number) : ~ no_NaN l -> Math_min l = NaN.
Proof. intro H. apply fold_min_step_has_NaN, not_no_NaN, H. Qed.

(** [indexOf] never finds NaN. *)
Lemma indexOf_NaN (l : list number) : indexOf l NaN = None.
Proof.
  induction l as [|x l IH]; simpl; [reflexivity|].
  rewrite strict_eq_NaN_r, IH. reflexivity.
Qed.

(** [indexOf] finds the first element that is [===] to a member that is
    not NaN. *)
Lemma indexOf_first_number (l : list number) (m : number) :
  In m l -> m <> NaN ->
  exists i x,
    indexOf l m = Some i /\ nth_error l i = Some x /\ (x === m) = true /\
    (forall j y, (j < i)%nat -> nth_error l j = Some y -> (y === m) = false).
Proof.
  intros Hin Hm. induction l as [|a l IH]; [destruct Hin|].
  cbn [indexOf]. destruct (a === m) eqn:E.
  - exists 0%nat, a. repeat split; auto. intros j y Hj. lia.
  - destruct Hin as [->|Hin].
    { rewrite strict_eq_refl_number in E by exact Hm. discriminate. }
    destruct (IH Hin) as [i [x [Hi [Hx [Ex Hfirst]]]]].
    exists (S i), x. rewrite Hi. repeat split; auto.
    intros [|j] y Hj Hy; simpl in Hy.
    + injection Hy as <-. exact E.
    + apply (Hfirst j y); [lia|exact Hy].
Qed.

Lemma indexOf_max_first (l : list number) :
  l <> [] -> no_NaN l ->
  exists i, indexOf l (Math_max l) = Some i /\ first_max_at l i.
Proof.
  intros Hne Hl. destruct (Math_max_number l Hne Hl) as [F [Hin Hle]].
  destruct (indexOf_first_number l _ Hin F) as [i [x [Hi [Hx [Ex Hfirst]]]]].
  exists i. split; [exact Hi|]. exists x.
  apply strict_eq_num_eq in Ex.
  split; [exact Hx|]. split.
  - intros y Hy. rewrite Ex. auto.
  - intros j y Hj Hy. rewrite Ex. apply le_not_eq_lt.
    + apply Hle. eapply nth_error_In; eauto.
    + eapply Hfirst; eauto.
Qed.

Lemma indexOf_min_first (l : list number) :
  l <> [] -> no_NaN l ->
  exists i, indexOf l (Math_min l) = Some i /\ first_min_at l i.
Proof.
  intros Hne Hl. destruct (Math_min_number l Hne Hl) as [F [Hin Hle]].
  destruct (indexOf_first_number l _ Hin F) as [i [x [Hi [Hx [Ex Hfirst]]]]].
  exists i. split; [exact Hi|]. exists x.
  apply strict_eq_num_eq in Ex.
  split; [exact Hx|]. split.
  - intros y Hy. rewrite Ex. auto.
  - intros j y Hj Hy. rewrite Ex.
    assert (Hy' : In y l) by (eapply nth_error_In; eauto).
    specialize (Hle y Hy'). specialize (Hfirst j y Hj Hy).
    clear - Hle Hfirst.
    destruct (Math_min l), y; simpl in *; try congruence. qprop. lra.
Qed.

(** ** The selection and its spreads *)

Lemma aftVals_length (validBlends : list App.Candidate) :
  length (App.aftVals validBlends) = length validBlends.
Proof. apply length_map. Qed.

Lemma costVals_length (validBlends : list App.Candidate) :
  length (App.costVals validBlends) = length validBlends.
Proof. apply length_map. Qed.

Lemma blendScores_length (aftMin aftMax costMin costMax : number)
  (validBlends : list App.Candidate) :
  length (App.blendScores aftMin aftMax costMin costMax validBlends)
  = length validBlends.
Proof. apply length_map. Qed.

Lemma spread_within (maxArguments : nat) (f : list number -> number)
  (args : list number) :
  (length args <= maxArguments)%nat ->
  App.spread maxArguments f args = Some (f args).
Proof.
  intro H. unfold App.spread.
  now rewrite (proj2 (Nat.leb_le _ _) H).
Qed.

Lemma spread_beyond (maxArguments : nat) (f : list number -> number)
  (args : list number) :
  (maxArguments < length args)%nat -> App.spread maxArguments f args = None.
Proof.
  intro H. unfold App.spread.
  now rewrite (proj2 (Nat.leb_gt _ _) H).
Qed.

(** All seven spreads have as many arguments as there are candidates: they
    succeed together. *)
Lemma select_within (maxArguments : nat) (validBlends : list App.Candidate) :
  (length validBlends <= maxArguments)%nat ->
  let aftVals := App.aftVals validBlends in
  let costVals := App.costVals validBlends in
  let blendScores :=
    App.blendScores (Math_min aftVals) (Math_max aftVals)
                    (Math_min costVals) (Math_max costVals) validBlends in
  App.select maxArguments validBlends
  = Some {| App.bestAftBlend :=
              App.pick validBlends (indexOf aftVals (Math_max aftVals));
            App.cheapestBlend :=
              App.pick validBlends (indexOf costVals (Math_min costVals));
            App.balancedBlend :=
              App.pick validBlends
                       (indexOf blendScores (Math_max blendScores)) |}.
Proof.
  intros H aftVals costVals blendScores. unfold App.select.
  rewrite !spread_within
    by (rewrite ?aftVals_length, ?costVals_length, ?blendScores_length;
        exact H).
  reflexivity.
Qed.

Lemma select_beyond (maxArguments : nat) (validBlends : list App.Candidate) :
  (maxArguments < length validBlends)%nat ->
  App.select maxArguments validBlends = None.
Proof.
  intro H. unfold App.select.
  rewrite spread_beyond by (rewrite aftVals_length; exact H). reflexivity.
Qed.

(** ** C5: degenerate normalisation *)





(** ** C6: the three selected blends *)

(** The element of [validBlends] at the first maximum of a list of values,
    one per candidate. *)
Lemma pick_first_max (validBlends : list App.Candidate) (vals : list number) :
  validBlends <> [] -> length vals = length validBlends ->
  (no_NaN vals ->
   exists i b,
     App.pick validBlends (indexOf vals (Math_max vals)) = Some b /\
     nth_error validBlends i = Some b /\ first_max_at vals i) /\
  (~ no_NaN vals ->
   App.pick validBlends (indexOf vals (Math_max vals)) = None).
Proof.
  intros Hne Hlen. split.
  - intro Hn.
    assert (Hv : vals <> []).
    { destruct vals; [|discriminate]. destruct validBlends;
        [congruence|discriminate]. }
    destruct (indexOf_max_first vals Hv Hn) as [i [Ei Fi]].
    assert (Hi : (i < length validBlends)%nat).
    { destruct Fi as [m [Hm _]]. rewrite <- Hlen.
      apply nth_error_Some. congruence. }
    destruct (nth_error validBlends i) as [b|] eqn:Eb;
      [|apply nth_error_None in Eb; lia].
    exists i, b. rewrite Ei. cbn [App.pick]. auto.
  - intro Hn. rewrite (Math_max_NaN _ Hn), indexOf_NaN. reflexivity.
Qed.

Lemma pick_first_min (validBlends : list App.Candidate) (vals : list number) :
  validBlends <> [] -> length vals = length validBlends ->
  (no_NaN vals ->
   exists i b,
     App.pick validBlends (indexOf vals (Math_min vals)) = Some b /\
     nth_error validBlends i = Some b /\ first_min_at vals i) /\
  (~ no_NaN vals ->
   App.pick validBlends (indexOf vals (Math_min vals)) = None).
Proof.
  intros Hne Hlen. split.
  - intro Hn.
    assert (Hv : vals <> []).
    { destruct vals; [|discriminate]. destruct validBlends;
        [congruence|discriminate]. }
    destruct (indexOf_min_first vals Hv Hn) as [i [Ei Fi]].
    assert (Hi : (i < length validBlends)%nat).
    { destruct Fi as [m [Hm _]]. rewrite <- Hlen.
      apply nth_error_Some. congruence. }
    destruct (nth_error validBlends i) as [b|] eqn:Eb;
      [|apply nth_error_None in Eb; lia].
    exists i, b. rewrite Ei. cbn [App.pick]. auto.
  - intro Hn. rewrite (Math_min_NaN _ Hn), indexOf_NaN. reflexivity.
Qed.

(** C6 as stated fails: for the two candidates of costs 1e306 and Infinity
    every score is NaN, [Math.max] of the scores is NaN, [indexOf] finds no
    NaN, and the balanced blend is [undefined], although the list of
    candidates is not empty. *)
Lemma balanced_blend_undefined :
  exists selection,
    App.select 1000 overflowCandidates = Some selection /\
    App.cheapestBlend selection = nth_error overflowCandidates 0 /\
    App.balancedBlend selection = None.
Proof. eexists. split; [reflexivity|]. split; reflexivity. Qed.

(** C6, amended.  For every non-empty list of candidates that the engine
    accepts as the arguments of one call, the selection is made, and: when
    no [predicted_aft] is NaN, the best-AFT blend is the first candidate, in
    the order of the list, of maximum [predicted_aft]; when no [cost] is NaN,
    the cheapest blend is the first one of minimum [cost]; when no score
    [aftNorm + costNorm] is NaN, the balanced blend is the first one of
    maximum score.  With a NaN among the values concerned the blend is
    [undefined]. *)
Theorem selection_first_extremes (maxArguments : nat)
  (validBlends : list App.Candidate) :
  validBlends <> [] -> (length validBlends <= maxArguments)%nat ->
  let aftVals := App.aftVals validBlends in
  let costVals := App.costVals validBlends in
  let blendScores :=
    App.blendScores (Math_min aftVals) (Math_max aftVals)
                    (Math_min costVals) (Math_max costVals) validBlends in
  exists selection,
    App.select maxArguments validBlends = Some selection /\
    (no_NaN aftVals ->
     exists i b, App.bestAftBlend selection = Some b /\
                 nth_error validBlends i = Some b /\
                 first_max_at aftVals i) /\
    (no_NaN costVals ->
     exists i b, App.cheapestBlend selection = Some b /\
                 nth_error validBlends i = Some b /\
                 first_min_at costVals i) /\
    (no_NaN blendScores ->
     exists i b, App.balancedBlend selection = Some b /\
                 nth_error validBlends i = Some b /\
                 first_max_at blendScores i) /\
    (~ no_NaN aftVals -> App.bestAftBlend selection = None) /\
    (~ no_NaN costVals -> App.cheapestBlend selection = None) /\
    (~ no_NaN blendScores -> App.balancedBlend selection = None).
Proof.
  intros Hne Hlen aftVals costVals blendScores.
  eexists. split; [apply (select_within _ _ Hlen)|].
  cbn [App.bestAftBlend App.cheapestBlend App.balancedBlend].
  fold aftVals costVals. fold blendScores.
  destruct (pick_first_max validBlends aftVals Hne (aftVals_length _))
    as [A1 A2].
  destruct (pick_first_min validBlends costVals Hne (costVals_length _))
    as [C1 C2].
  destruct (pick_first_max validBlends blendScores Hne
              (blendScores_length _ _ _ _ _)) as [B1 B2].
  repeat split; assumption.
Qed.

(** The 21 candidates of the two sample coals. *)
Lemma selection_first_extremes_witness :
  exists selection,
    App.select 1000
      (App.validBlendsOf [coalA; coalB]
         (pruned_from (App.intBounds [coalA; coalB]) []))
    = Some selection.
Proof.
  destruct (selection_first_extremes 1000
              (App.validBlendsOf [coalA; coalB]
                 (pruned_from (App.intBounds [coalA; coalB]) [])))
    as (selection & E & _).
  - discriminate.
  - apply Nat.leb_le. reflexivity.
  - exists selection. exact E.
Defined.

(** ** C7: infeasible bounds and invalid input *)


Lemma generateCombinations_infeasible (blends : list Body.blend) :
  blends <> [] ->
  (forall p, within_bounds (App.intBounds blends) p -> sumZ p <> 100%Z) ->
  App.generateCombinations (App.intBounds blends) = Some [].
Proof.
  intros Hne Hnone.
  assert (Hb : App.intBounds blends <> []).
  { intro E. apply (f_equal (@length _)) in E.
    rewrite intBounds_length in E. destruct blends; [congruence|discriminate]. }
  rewrite generateCombinations_suffix by exact Hb. f_equal.
  destruct (pruned_from (App.intBounds blends) []) as [|p l] eqn:E;
    [reflexivity|].
  assert (Hp : In p (pruned_from (App.intBounds blends) []))
    by (rewrite E; now left).
  apply pruned_from_sound in Hp. destruct Hp as [q [-> [Hq Hs]]].
  destruct (Hnone _ Hq Hs).
Qed.

(** The answer to a non-empty request, by the vectors its enumeration
    yields: 404 when there is none, 200 when the engine accepts them as the
    arguments of a call, 500 when there are more. *)
Lemma optimize_cases (maxArguments : nat) (blends : list Body.blend) :
  blends <> [] ->
  let combos := pruned_from (App.intBounds blends) [] in
  let validBlends := App.validBlendsOf blends combos in
  App.generateCombinations (App.intBounds blends) = Some combos /\
  (combos = [] ->
   App.optimize maxArguments (Arr blends)
   = App.Status404 "No valid blends found") /\
  (combos <> [] -> (length combos <= maxArguments)%nat ->
   exists selection,
     App.select maxArguments validBlends = Some selection /\
     App.optimize maxArguments (Arr blends)
     = App.Status200
         {| App.best_aft_blend := App.bestAftBlend selection;
            App.cheapest_blend := App.cheapestBlend selection;
            App.balanced_blend := App.balancedBlend selection;
            App.current_blend := App.currentBlend blends;
            App.individual_coal_afts := App.individualCoalAFTs blends |}) /\
  ((maxArguments < length combos)%nat ->
   App.optimize maxArguments (Arr blends)
   = App.Status500 "Optimization failed").
Proof.
  intros Hne combos validBlends.
  assert (Hb : App.intBounds blends <> []).
  { intro E. apply (f_equal (@length _)) in E.
    rewrite intBounds_length in E. destruct blends; [congruence|discriminate]. }
  pose proof (generateCombinations_suffix _ Hb) as Hgen. fold combos in Hgen.
  assert (Hlen : length validBlends = length combos)
    by apply length_map.
  destruct blends as [|b blends]; [congruence|].
  split; [exact Hgen|]. unfold App.optimize. rewrite Hgen.
  fold validBlends. rewrite Hlen.
  split; [|split].
  - intros ->. reflexivity.
  - intros Hc Hmax. destruct combos as [|p combos'] eqn:E; [congruence|].
    cbn [length Nat.eqb]. rewrite <- Hlen in Hmax.
    rewrite (select_within _ _ Hmax). eexists. split; reflexivity.
  - intro Hmax. destruct combos as [|p combos'] eqn:E; [simpl in Hmax; lia|].
    cbn [length Nat.eqb]. rewrite <- Hlen in Hmax.
    now rewrite (select_beyond _ _ Hmax).
Qed.

(** Four coals without bounds have 176851 candidates, the vectors of four
    percentages that sum to 100.  An engine that accepts fewer arguments in
    a call answers such a request with status 500. *)
Example four_free_coals (maxArguments : nat) :
  (N.of_nat maxArguments < 176851)%N ->
  App.intBounds [coalFree; coalFree; coalFree; coalFree]
  = [(0, 100); (0, 100); (0, 100); (0, 100)]%Z /\
  App.optimize maxArguments (Arr [coalFree; coalFree; coalFree; coalFree])
  = App.Status500 "Optimization failed".
Proof.
  intro H. split; [reflexivity|].
  destruct (optimize_cases maxArguments
              [coalFree; coalFree; coalFree; coalFree])
    as (_ & _ & _ & H500); [discriminate|].
  apply H500.
  assert (E : N.of_nat
                (length
                   (pruned_from
                      (App.intBounds [coalFree; coalFree; coalFree; coalFree])
                      []))
              = 176851%N) by (vm_compute; reflexivity).
  lia.
Qed.

(** C7.  A missing, non-array or empty [blends] is answered with status 400
    before any enumeration; a non-empty list whose bounds admit no integer
    vector summing to 100 is answered with status 404 and the message
    ["No valid blends found"], not with the status 500 of a failed
    computation. *)
Theorem optimize_error_responses (maxArguments : nat) :
  App.optimize maxArguments Falsy = App.Status400 "Invalid blend data" /\
  App.optimize maxArguments NotArray = App.Status400 "Invalid blend data" /\
  App.optimize maxArguments (Arr []) = App.Status400 "Invalid blend data" /\
  (forall blends : list Body.blend,
     blends <> [] ->
     (forall p, within_bounds (App.intBounds blends) p -> sumZ p <> 100%Z) ->
     App.generateCombinations (App.intBounds blends) = Some [] /\
     App.optimize maxArguments (Arr blends)
     = App.Status404 "No valid blends found").
Proof.
  repeat split; try reflexivity.
  - apply generateCombinations_infeasible; assumption.
  - destruct blends as [|b blends]; [congruence|].
    unfold App.optimize.
    rewrite (generateCombinations_infeasible (b :: blends)) by assumption.
    reflexivity.
Qed.

(** Two coals each fixed at 60 percent. *)
Lemma optimize_error_responses_witness :
  App.optimize 1000 (Arr [coal60; coal60])
  = App.Status404 "No valid blends found".
Proof.
  apply optimize_error_responses; [discriminate|].
  intros p Hp Hs.
  inversion Hp as [|b1 v1 r1 q1 H1 Hq1]; subst.
  inversion Hq1 as [|b2 v2 r2 q2 H2 Hq2]; subst.
  inversion Hq2; subst.
  rewrite !sumZ_cons in Hs. change (sumZ []) with 0%Z in Hs.
  cbn in H1, H2. lia.
Defined.

(** ** Sums by [reduce] and by index *)

Lemma fold_left_ext_in {A B : Type} (F G : B -> A -> B) (l : list A) :
  (forall s i, In i l -> F s i = G s i) ->
  forall a, fold_left F l a = fold_left G l a.
Proof.
  induction l as [|x l IH]; intros H a; simpl; [reflexivity|].
  rewrite (H a x) by (now left). apply IH.
  intros s i Hi. apply H. now right.
Qed.

Lemma reduce_from_sum {A : Type} (g : A -> nat -> number) (d : A)
  (l : list A) :
  forall (k : nat) (acc : number),
    reduce_from (fun sum x i => sum + g x i) k l acc
    = fold_left (fun s i => s + g (nth (i - k) l d) i) (seq k (length l)) acc.
Proof.
  induction l as [|a l IH]; intros k acc; simpl; [reflexivity|].
  rewrite IH, Nat.sub_diag. apply fold_left_ext_in.
  intros s i Hi. apply in_seq in Hi.
  replace (i - k)%nat with (S (i - S k)) by lia. reflexivity.
Qed.

Lemma reduce_sigma {A : Type} (g : A -> nat -> number) (d : A)
  (l : list A) :
  reduce (fun sum x i => sum + g x i) l $0
  = sigma (length l) (fun i => g (nth i l d) i).
Proof.
  unfold reduce, sigma. rewrite (reduce_from_sum g d).
  apply fold_left_ext_in. intros s i _. now rewrite Nat.sub_0_r.
Qed.

Lemma fold_left_num_eq (f g : nat -> number) (l : list nat) :
  (forall i, In i l -> f i =~ g i) ->
  forall a a', a =~ a' ->
    fold_left (fun s i => s + f i) l a =~ fold_left (fun s i => s + g i) l a'.
Proof.
  induction l as [|x l IH]; intros H a a' Ha; simpl; [exact Ha|].
  apply IH.
  - intros i Hi. apply H. now right.
  - rewrite Ha, (H x) by (now left). reflexivity.
Qed.

Lemma sigma_num_eq (n : nat) (f g : nat -> number) :
  (forall i, (i < n)%nat -> f i =~ g i) -> sigma n f =~ sigma n g.
Proof.
  intro H. unfold sigma. apply fold_left_num_eq; [|reflexivity].
  intros i Hi. apply in_seq in Hi. apply H. lia.
Qed.

Lemma at_map {A : Type} (f : A -> number) (l : list A) (d : A) (i : nat) :
  (i < length l)%nat -> at_ (map f l) i = f (nth i l d).
Proof.
  intro Hi. unfold at_.
  rewrite (nth_indep _ NaN (f d)) by (now rewrite length_map).
  apply map_nth.
Qed.

Lemma at_num_eq (l l' : list number) (i : nat) :
  Forall2 num_eq l l' -> at_ l i =~ at_ l' i.
Proof.
  intro H. revert i. unfold at_.
  induction H as [|x y l l' Hxy _ IH]; intros [|i]; simpl; auto;
    reflexivity.
Qed.

Lemma or_zero_finite (a : number) : isFinite a = true -> (a || $0) =~ a.
Proof.
  destruct a; try discriminate. intros _. unfold or_else. simpl.
  destruct (Qeq_bool q 0) eqn:E; simpl; [|reflexivity].
  qprop. symmetry. exact E.
Qed.

(** [calculateAFT] depends on the values of its argument only. *)
Lemma calculateAFT_num_eq (l l' : list number) :
  Forall2 num_eq l l' -> calculateAFT l =~ calculateAFT l'.
Proof.
  intro H. unfold calculateAFT.
  pose proof (at_num_eq l l' 0 H) as E0. pose proof (at_num_eq l l' 1 H) as E1.
  pose proof (at_num_eq l l' 2 H) as E2. pose proof (at_num_eq l l' 3 H) as E3.
  pose proof (at_num_eq l l' 4 H) as E4. pose proof (at_num_eq l l' 5 H) as E5.
  pose proof (at_num_eq l l' 6 H) as E6. pose proof (at_num_eq l l' 7 H) as E7.
  pose proof (at_num_eq l l' 8 H) as E8.
  cbv zeta.
  assert (C1 : (at_ l 0 + at_ l 1 <? $55) = (at_ l' 0 + at_ l' 1 <? $55))
    by (now rewrite E0, E1).
  assert (C2 : (at_ l 0 + at_ l 1 >=? $55) = (at_ l' 0 + at_ l' 1 >=? $55))
    by (now rewrite E0, E1).
  assert (C3 : (at_ l 0 + at_ l 1 <? $75) = (at_ l' 0 + at_ l' 1 <? $75))
    by (now rewrite E0, E1).
  rewrite C1, C2, C3.
  destruct (at_ l' 0 + at_ l' 1 <? $55);
    [|destruct ((at_ l' 0 + at_ l' 1 >=? $55) && (at_ l' 0 + at_ l' 1 <? $75))];
    rewrite E0, E1, E2, E3, E4, E5, E6, E7, E8; reflexivity.
Qed.

(** ** C9: the current blend *)

Lemma Forall2_map_in {A B C : Type} (R : B -> C -> Prop) (f : A -> B)
  (g : A -> C) (l : list A) :
  (forall x, In x l -> R (f x) (g x)) -> Forall2 R (map f l) (map g l).
Proof.
  induction l as [|a l IH]; intro H; simpl; constructor.
  - apply H. now left.
  - apply IH. intros x Hx. apply H. now right.
Qed.

Lemma current_or_zero (b : Body.blend) :
  current_not_infinite b ->
  (Body.current b || $0) =~ Fin (finite_or 0 (Body.current b)).
Proof.
  intros [H1 H2]. destruct (Body.current b) as [q| | |]; try congruence.
  - apply or_zero_finite. reflexivity.
  - reflexivity.
Qed.

(** The weight of a coal in the oxides: a current percentage that is not a
    finite number counts as 0. *)
Lemma current_weight (b : Body.blend) :
  ((if isFinite (Body.current b) then Body.current b / $100 else $0) || $0)
  =~ Fin (finite_or 0 (Body.current b)) / $100.
Proof.
  destruct (Body.current b) as [q| | |].
  - apply or_zero_finite. reflexivity.
  - cbn. reflexivity.
  - cbn. reflexivity.
  - cbn. reflexivity.
Qed.

Lemma currentBlendedOxides_projection (blends : list Body.blend) :
  Forall2 num_eq (App.currentBlendedOxides blends)
          (projected_oxides blends (currentPercents blends)).
Proof.
  change (App.currentBlendedOxides blends)
    with (map (fun oi =>
                 reduce (fun sum val idx =>
                           sum + at_ val oi
                                 * (at_ (App.currentWeights blends) idx || $0))
                        (App.oxideValues blends) $0) (seq 0 9)).
  unfold projected_oxides. apply Forall2_map_in. intros oi _.
  rewrite (reduce_sigma
             (fun val idx =>
                at_ val oi * (at_ (App.currentWeights blends) idx || $0)) []).
  unfold App.oxideValues at 1. rewrite length_map.
  apply sigma_num_eq. intros i Hi.
  destruct blends as [|b0 bs] eqn:E; [simpl in Hi; lia|]. rewrite <- E in *.
  unfold App.currentWeights, currentPercents.
  rewrite !(at_map _ _ b0) by exact Hi.
  rewrite current_weight. reflexivity.
Qed.

(** The weights of cost and GCV are the percentages of the [blend] field:
    [Number(b.current) || 0]. *)
Lemma current_sum_weighted (blends : list Body.blend)
  (vals : list number) :
  all_finite vals -> length vals = length blends ->
  reduce (fun sum b i => sum + (Body.current b || $0) * (at_ vals i || $0))
         blends $0 / $100
  =~ sigma (length blends)
           (fun i => at_ (map (fun b => Body.current b || $0) blends) i
                     * at_ vals i) / $100.
Proof.
  intros Hv Hlen.
  destruct blends as [|b0 bs] eqn:E; [reflexivity|]. rewrite <- E in *.
  rewrite (reduce_sigma
             (fun b i => (Body.current b || $0) * (at_ vals i || $0)) b0).
  apply div_Proper; [|reflexivity].
  apply sigma_num_eq. intros i Hi.
  rewrite (at_map _ _ b0) by exact Hi.
  rewrite (or_zero_finite (at_ vals i)); [reflexivity|].
  apply at_finite; [exact Hv|lia].
Qed.

Lemma current_sum_projection (blends : list Body.blend)
  (vals : list number) :
  Forall current_not_infinite blends ->
  all_finite vals -> length vals = length blends ->
  reduce (fun sum b i => sum + (Body.current b || $0) * (at_ vals i || $0))
         blends $0 / $100
  =~ sigma (length blends)
           (fun i => at_ (currentPercents blends) i * at_ vals i) / $100.
Proof.
  intros Hc Hv Hlen.
  destruct blends as [|b0 bs] eqn:E; [reflexivity|]. rewrite <- E in *.
  rewrite (reduce_sigma
             (fun b i => (Body.current b || $0) * (at_ vals i || $0)) b0).
  apply div_Proper; [|reflexivity].
  apply sigma_num_eq. intros i Hi.
  unfold currentPercents. rewrite (at_map _ _ b0) by exact Hi.
  rewrite current_or_zero, or_zero_finite; [reflexivity| |].
  - apply at_finite; [exact Hv|lia].
  - apply (proj1 (Forall_forall _ _) Hc). apply nth_In, Hi.
Qed.

(** C9 as stated fails: for a coal whose current percentage is Infinity the
    oxides are blended with the weight 0, which gives the AFT of no oxides
    at all, while the cost is computed with Infinity; the AFT is not the one
    of the projection with the weight [current / 100]. *)
Lemma infinite_current_not_projected :
  App.blend (App.currentBlend [coalInfinite]) = [PosInf] /\
  App.predicted_aft (App.currentBlend [coalInfinite]) =~ $1245 /\
  App.cost (App.currentBlend [coalInfinite]) = PosInf /\
  ~ (App.predicted_aft (App.currentBlend [coalInfinite])
     =~ calculateAFT (projected_oxides [coalInfinite] [PosInf])).
Proof.
  split; [reflexivity|]. split; [vm_compute; reflexivity|].
  split; [reflexivity|]. vm_compute. intro H. exact H.
Qed.

(** C9, amended.  For every list of coals none of whose current percentages
    is an infinity (one that is not a number counts as 0), the current blend
    is the weighted projection of the coals with their current percentages:
    the blended oxides, weighted by [currentPercent / 100], feed
    [calculateAFT], and cost and GCV are the weighted sums divided by 100.
    Nothing depends on the sum of the current percentages, which is neither
    checked nor rescaled, nor on the enumerated combinations: every answer
    of status 200 carries this blend.  For every list of coals, the oxides
    are weighted by the percentages with what is not a finite number
    counting as 0, and cost and GCV by the percentages of the [blend] field,
    where only what is not a number counts as 0. *)
Theorem currentBlend_projection (blends : list Body.blend) :
  let pcts := currentPercents blends in
  let c := App.currentBlend blends in
  App.blend c = map (fun b => Body.current b || $0) blends /\
  App.predicted_aft c =~ calculateAFT (projected_oxides blends pcts) /\
  App.cost c =~ projected_cost blends (App.blend c) /\
  App.gcv c =~ projected_gcv blends (App.blend c) /\
  (Forall current_not_infinite blends ->
   Forall2 num_eq (App.blend c) pcts /\
   App.cost c =~ projected_cost blends pcts /\
   App.gcv c =~ projected_gcv blends pcts) /\
  (forall maxArguments r,
     App.optimize maxArguments (Arr blends) = App.Status200 r ->
     App.current_blend r = c).
Proof.
  intros pcts c. split; [reflexivity|]. split; [|split; [|split; [|split]]].
  - unfold c, App.currentBlend. cbn [App.predicted_aft].
    apply calculateAFT_num_eq, currentBlendedOxides_projection.
  - unfold c, App.currentBlend, projected_cost. cbn [App.cost App.blend].
    apply current_sum_weighted; [apply costsPerTon_finite|].
    unfold App.costsPerTon. now rewrite length_map.
  - unfold c, App.currentBlend, projected_gcv. cbn [App.gcv App.blend].
    apply current_sum_weighted; [apply gcvValue_finite|].
    unfold App.gcvValue. now rewrite length_map.
  - intro Hc. split; [|split].
    + unfold c, pcts, App.currentBlend, currentPercents. cbn [App.blend].
      apply Forall2_map_in. intros b Hb. apply current_or_zero.
      apply (proj1 (Forall_forall _ _) Hc _ Hb).
    + unfold c, App.currentBlend, projected_cost. cbn [App.cost].
      apply current_sum_projection; [exact Hc|apply costsPerTon_finite|].
      unfold App.costsPerTon. now rewrite length_map.
    + unfold c, App.currentBlend, projected_gcv. cbn [App.gcv].
      apply current_sum_projection; [exact Hc|apply gcvValue_finite|].
      unfold App.gcvValue. now rewrite length_map.
  - intros maxArguments r. destruct blends as [|b blends]; [discriminate|].
    unfold App.optimize.
    destruct (App.generateCombinations _); [|discriminate].
    destruct (length _ =? 0)%nat; [discriminate|].
    destruct (App.select _ _); [|discriminate].
    intro H. injection H as <-. reflexivity.
Qed.

(** The sample coals have the current percentages 45 and 45, which sum to
    90. *)
Lemma currentBlend_projection_witness :
  App.cost (App.currentBlend [coalA; coalB])
  =~ projected_cost [coalA; coalB] [$45; $45].
Proof.
  apply (currentBlend_projection [coalA; coalB]).
  repeat constructor; discriminate.
Defined.

(** ** Scenarios of the design document *)

(** Three coals fixed at 33 percent, the last one allowed 34: one
    combination. *)
Example one_feasible_combination :
  App.generateCombinations [(33, 33); (33, 33); (33, 34)]%Z
  = Some [[33; 33; 34]%Z].
Proof. reflexivity. Qed.

(** An empty list of bounds makes the enumerator throw; the handler never
    calls it so, an empty [blends] being answered with status 400. *)
Example generateCombinations_empty_bounds :
  App.generateCombinations [] = None.
Proof. reflexivity. Qed.

(* ================================================================== *)
(** * Further properties of the enumerators *)
(* ================================================================== *)

(** X1.  With non-negative lower bounds, as the sanitised bounds have, the
    enumerator of [/optimize] returns, and the vectors it yields are exactly
    the integer vectors within the bounds that sum to 100: none is
    missed. *)
Theorem generateCombinations_exact (bounds : list (Z * Z)) :
  bounds <> [] ->
  Forall (fun b => (0 <= fst b)%Z) bounds ->
  exists combos,
    App.generateCombinations bounds = Some combos /\
    forall p, In p combos <-> within_bounds bounds p /\ sumZ p = 100%Z.
Proof.
  intros Hne Hmin. exists (pruned_from bounds []).
  split; [apply generateCombinations_suffix, Hne|].
  intro p. rewrite pruned_from_naive.
  - rewrite naive_from_spec. split.
    + intros [q [-> HH]]. exact HH.
    + intros HH. exists p. split; [reflexivity|exact HH].
  - exact Hne.
  - destruct bounds; [constructor|]. inversion Hmin; assumption.
Qed.

Lemma generateCombinations_exact_witness :
  exists combos,
    App.generateCombinations [(0, 100); (20, 60); (10, 30)]%Z = Some combos /\
    forall p, In p combos <->
              within_bounds [(0, 100); (20, 60); (10, 30)]%Z p /\
              sumZ p = 100%Z.
Proof.
  apply (generateCombinations_exact [(0, 100); (20, 60); (10, 30)]%Z).
  - discriminate.
  - repeat constructor; simpl; lia.
Defined.

(** X2.  For bounds that are percentages, inverted ones included, the
    cross-product enumerator of the earlier server yields exactly the
    vectors within the bounds that sum to 100. *)
Theorem Legacy_generateCombinations_exact (bounds : list (Z * Z)) :
  percent_bounds bounds ->
  forall p, In p (Legacy.generateCombinations bounds) <->
            within_bounds bounds p /\ sumZ p = 100%Z.
Proof.
  intros _ p. rewrite Legacy_generateCombinations_suffix, naive_from_spec.
  split.
  - intros [q [-> HH]]. exact HH.
  - intros HH. exists p. split; [reflexivity|exact HH].
Qed.

Lemma Legacy_generateCombinations_exact_witness :
  In [40; 60]%Z (Legacy.generateCombinations [(40, 60); (40, 60)]%Z).
Proof.
  apply (Legacy_generateCombinations_exact [(40, 60); (40, 60)]%Z).
  - repeat constructor; simpl; lia.
  - split; [|reflexivity]. repeat constructor; simpl; lia.
Defined.

(** ** The order of the yielded vectors *)

Lemma lex_lt_irrefl (p : list Z) : ~ lex_lt p p.
Proof.
  induction p as [|x p IH]; simpl; [tauto|].
  intros [H|[_ H]]; [lia|auto].
Qed.

Lemma lex_lt_app (acc p q : list Z) :
  lex_lt p q -> lex_lt (acc ++ p) (acc ++ q).
Proof.
  intro H. induction acc as [|a acc IH]; simpl; [exact H|]. right. auto.
Qed.

Lemma StronglySorted_app {A : Type} (R : A -> A -> Prop) (l1 l2 : list A) :
  StronglySorted R l1 -> StronglySorted R l2 ->
  (forall x y, In x l1 -> In y l2 -> R x y) ->
  StronglySorted R (l1 ++ l2).
Proof.
  intros H1 H2 H12. induction H1 as [|a l1 Hs IH Ha]; simpl; [exact H2|].
  constructor.
  - apply IH. intros x y Hx Hy. apply H12; [now right|exact Hy].
  - apply Forall_app. split; [exact Ha|].
    apply Forall_forall. intros y Hy. apply H12; [now left|exact Hy].
Qed.

Lemma StronglySorted_NoDup {A : Type} (R : A -> A -> Prop) (l : list A) :
  (forall x, ~ R x x) -> StronglySorted R l -> NoDup l.
Proof.
  intros Hirr H. induction H as [|a l Hs IH Ha]; constructor; [|exact IH].
  intro Hin. apply (Hirr a).
  exact (proj1 (Forall_forall _ _) Ha _ Hin).
Qed.

Lemma extends_lex_lt (acc : list Z) (k : Z -> list (list Z)) (v w : Z)
  (p q : list Z) :
  extends_with acc k -> (v < w)%Z -> In p (k v) -> In q (k w) -> lex_lt p q.
Proof.
  intros Hk Hvw Hp Hq.
  destruct (Hk _ _ Hp) as [p' ->]. destruct (Hk _ _ Hq) as [q' ->].
  apply lex_lt_app. simpl. now left.
Qed.

Lemma pruned_loop_sorted (s : Z) (rest : list (Z * Z))
  (acc : list Z) (k : Z -> list (list Z)) (hi : Z) :
  extends_with acc k ->
  (forall v, StronglySorted lex_lt (k v)) ->
  forall lo, StronglySorted lex_lt (pruned_loop s rest k (Zrange lo hi)).
Proof.
  intros Hk Hsorted.
  apply (Zrange_ind hi (fun lo l =>
           StronglySorted lex_lt (pruned_loop s rest k l))).
  - intros lo _. constructor.
  - intros lo Hle IH. cbn [pruned_loop].
    destruct (s + lo >? 100)%Z; [constructor|].
    destruct (s + lo + remainingMax rest <? 100)%Z; [exact IH|].
    destruct (s + lo + remainingMin rest >? 100)%Z; [exact IH|].
    apply StronglySorted_app; [apply Hsorted|exact IH|].
    intros p q Hp Hq. apply in_pruned_loop in Hq.
    destruct Hq as [w [Hw Hq]]. apply In_Zrange in Hw.
    apply (extends_lex_lt acc k lo w); auto. lia.
Qed.

Lemma pruned_from_sorted (suffix : list (Z * Z)) :
  forall acc, StronglySorted lex_lt (pruned_from suffix acc).
Proof.
  induction suffix as [|[lo hi] rest IH]; intro acc; [constructor|].
  destruct rest as [|b rest].
  - rewrite pruned_from_last.
    destruct (_ && _); repeat constructor.
  - rewrite pruned_from_inner by discriminate.
    apply (pruned_loop_sorted _ _ acc); [|intro v; apply IH].
    intros v p Hp. apply pruned_from_sound in Hp.
    destruct Hp as [q [-> _]]. exists q. now rewrite <- app_assoc.
Qed.

Lemma flat_map_sorted (acc : list Z) (k : Z -> list (list Z)) (hi : Z) :
  extends_with acc k ->
  (forall v, StronglySorted lex_lt (k v)) ->
  forall lo, StronglySorted lex_lt (flat_map k (Zrange lo hi)).
Proof.
  intros Hk Hsorted.
  apply (Zrange_ind hi (fun lo l => StronglySorted lex_lt (flat_map k l))).
  - intros lo _. constructor.
  - intros lo Hle IH. cbn [flat_map].
    apply StronglySorted_app; [apply Hsorted|exact IH|].
    intros p q Hp Hq. apply in_flat_map in Hq.
    destruct Hq as [w [Hw Hq]]. apply In_Zrange in Hw.
    apply (extends_lex_lt acc k lo w); auto. lia.
Qed.

Lemma naive_from_sorted (suffix : list (Z * Z)) :
  forall combo, StronglySorted lex_lt (naive_from suffix combo).
Proof.
  induction suffix as [|[lo hi] rest IH]; intro combo; cbn [naive_from].
  - destruct (sumZ combo =? 100)%Z; repeat constructor.
  - apply (flat_map_sorted combo); [|intro v; apply IH].
    intros v p Hp. apply naive_from_spec in Hp.
    destruct Hp as [q [-> _]]. exists q. now rewrite <- app_assoc.
Qed.

(** X3.  For every non-empty list of integer bounds, the enumerator of
    [/optimize] yields its vectors in strictly increasing lexicographic
    order (coal by coal, ascending percentage): in particular no vector is
    yielded twice. *)
Theorem generateCombinations_ordered (bounds : list (Z * Z)) :
  bounds <> [] ->
  exists combos,
    App.generateCombinations bounds = Some combos /\
    StronglySorted lex_lt combos /\ NoDup combos.
Proof.
  intro Hne. exists (pruned_from bounds []).
  split; [apply generateCombinations_suffix, Hne|].
  pose proof (pruned_from_sorted bounds []) as H.
  split; [exact H|].
  apply (StronglySorted_NoDup lex_lt); [apply lex_lt_irrefl|exact H].
Qed.

Lemma generateCombinations_ordered_witness :
  exists combos,
    App.generateCombinations [(0, 3); (98, 99); (0, 1)]%Z = Some combos /\
    StronglySorted lex_lt combos /\ NoDup combos.
Proof.
  apply (generateCombinations_ordered [(0, 3); (98, 99); (0, 1)]%Z).
  discriminate.
Defined.

(** X4.  For bounds that are percentages, the cross-product enumerator of
    the earlier server yields its vectors in strictly increasing
    lexicographic order, each of them once. *)
Theorem Legacy_generateCombinations_ordered (bounds : list (Z * Z)) :
  percent_bounds bounds ->
  StronglySorted lex_lt (Legacy.generateCombinations bounds) /\
  NoDup (Legacy.generateCombinations bounds).
Proof.
  intros _. rewrite Legacy_generateCombinations_suffix.
  pose proof (naive_from_sorted bounds []) as H.
  split; [exact H|].
  apply (StronglySorted_NoDup lex_lt); [apply lex_lt_irrefl|exact H].
Qed.

Lemma Legacy_generateCombinations_ordered_witness :
  NoDup (Legacy.generateCombinations [(40, 60); (40, 60)]%Z).
Proof.
  apply (Legacy_generateCombinations_ordered [(40, 60); (40, 60)]%Z).
  repeat constructor; simpl; lia.
Defined.

(* ================================================================== *)
(** * Further properties of the optimisation *)
(* ================================================================== *)

(** ** Which requests have a blend *)



(** What a made selection is. *)
Lemma select_Some_inv (maxArguments : nat)
  (validBlends : list App.Candidate) (selection : App.Selection) :
  App.select maxArguments validBlends = Some selection ->
  (length validBlends <= maxArguments)%nat /\
  exists iA iC iB,
    selection = {| App.bestAftBlend := App.pick validBlends iA;
                   App.cheapestBlend := App.pick validBlends iC;
                   App.balancedBlend := App.pick validBlends iB |}.
Proof.
  intro H.
  destruct (le_lt_dec (length validBlends) maxArguments) as [Hle|Hlt].
  - split; [exact Hle|]. rewrite (select_within _ _ Hle) in H.
    injection H as <-. eauto.
  - rewrite (select_beyond _ _ Hlt) in H. discriminate.
Qed.

(** What a 200 response says about the request. *)
Lemma optimize_200_inv (maxArguments : nat) (blends : list Body.blend)
  (r : App.Result) :
  App.optimize maxArguments (Arr blends) = App.Status200 r ->
  exists combos selection,
    App.generateCombinations (App.intBounds blends) = Some combos /\
    combos <> [] /\
    App.select maxArguments (App.validBlendsOf blends combos)
    = Some selection /\
    r = {| App.best_aft_blend := App.bestAftBlend selection;
           App.cheapest_blend := App.cheapestBlend selection;
           App.balanced_blend := App.balancedBlend selection;
           App.current_blend := App.currentBlend blends;
           App.individual_coal_afts := App.individualCoalAFTs blends |}.
Proof.
  destruct blends as [|b blends]; [discriminate|].
  unfold App.optimize.
  destruct (App.generateCombinations (App.intBounds (b :: blends)))
    as [combos|]; [|discriminate].
  destruct combos as [|p combos]; [discriminate|].
  cbn [App.validBlendsOf map length Nat.eqb].
  destruct (App.select maxArguments _) as [selection|] eqn:E;
    [|discriminate].
  intro H. exists (p :: combos), selection.
  split; [reflexivity|]. split; [discriminate|]. split; [exact E|].
  injection H as <-. reflexivity.
Qed.



(** ** The selected blends *)

Lemma pick_In (validBlends : list App.Candidate) (i : option nat)
  (b : App.Candidate) :
  App.pick validBlends i = Some b -> In b validBlends.
Proof.
  destruct i as [n|]; [|discriminate]. apply nth_error_In.
Qed.

(** The candidates of a request are the evaluations of vectors within the
    sanitised bounds that sum to 100. *)
Lemma validBlends_feasible (blends : list Body.blend)
  (combos : list (list Z)) (b : App.Candidate) :
  App.generateCombinations (App.intBounds blends) = Some combos ->
  In b (App.validBlendsOf blends combos) ->
  exists p, b = App.evaluate blends (map of_int p) /\
            within_bounds (App.intBounds blends) p /\ sumZ p = 100%Z.
Proof.
  intros Hgen Hb. unfold App.validBlendsOf in Hb.
  apply in_map_iff in Hb. destruct Hb as [p [<- Hp]].
  apply generateCombinations_Some in Hgen. destruct Hgen as [_ ->].
  apply pruned_from_sound in Hp. destruct Hp as [q [-> HH]].
  exists q. split; [reflexivity|exact HH].
Qed.

(** X6.  In every response of status 200, each of the best-AFT, the cheapest
    and the balanced blend that is there (one is [undefined] when a NaN
    stands in its way) is the candidate that the loop built for a vector of
    integer percentages that lies within the sanitised bounds of the coals
    and sums to 100. *)
Theorem selected_blends_feasible (maxArguments : nat)
  (blends : list Body.blend) (r : App.Result) :
  App.optimize maxArguments (Arr blends) = App.Status200 r ->
  forall sel b,
    In sel [App.best_aft_blend r; App.cheapest_blend r;
            App.balanced_blend r] ->
    sel = Some b ->
    exists p, b = App.evaluate blends (map of_int p) /\
              within_bounds (App.intBounds blends) p /\ sumZ p = 100%Z.
Proof.
  intros H200 sel b Hsel Hb.
  destruct (optimize_200_inv _ _ _ H200)
    as (combos & selection & Hgen & Hne & Hs & ->).
  destruct (select_Some_inv _ _ _ Hs) as (_ & iA & iC & iB & ->).
  cbn [App.best_aft_blend App.cheapest_blend App.balanced_blend
       App.bestAftBlend App.cheapestBlend App.balancedBlend] in Hsel.
  apply (validBlends_feasible _ _ _ Hgen).
  destruct Hsel as [<-|[<-|[<-|[]]]]; eapply pick_In; exact Hb.
Qed.

Lemma selected_blends_feasible_witness :
  exists r,
    App.optimize 1000 (Arr [coalA; coalB]) = App.Status200 r /\
    forall b,
      App.cheapest_blend r = Some b ->
      exists p, b = App.evaluate [coalA; coalB] (map of_int p) /\
                within_bounds (App.intBounds [coalA; coalB]) p /\
                sumZ p = 100%Z.
Proof.
  destruct (optimize_cases 1000 [coalA; coalB])
    as (_ & _ & H200 & _); [discriminate|].
  destruct H200 as (selection & _ & H);
    [discriminate|apply Nat.leb_le; vm_compute; reflexivity|].
  eexists. split; [exact H|]. intros b Hb.
  apply (selected_blends_feasible 1000 _ _ H _ b
           (or_intror (or_introl eq_refl)) Hb).
Defined.

(** ** Integers among the numbers *)

Lemma inject_Z_nonneg (x : Z) : (0 <= x)%Z -> (0 <= inject_Z x)%Q.
Proof. intro H. change 0%Q with (inject_Z 0). now rewrite <- Zle_Qle. Qed.

Lemma le_Fin (x y : Q) : (Fin x <=? Fin y) = true <-> (x <= y)%Q.
Proof. apply Qle_bool_iff. Qed.

(** ** A candidate is the weighted projection of its percentages *)

Lemma at_default (l : list number) (i : nat) (d : number) :
  (i < length l)%nat -> at_ l i = nth i l d.
Proof. intro Hi. unfold at_. now apply nth_indep. Qed.

Lemma evaluate_oxides_projection (blends : list Body.blend)
  (blend : list number) :
  length blend = length blends ->
  Forall2 num_eq
    (mapi (fun (_ : string) oi =>
             reduce (fun sum val idx =>
                       sum + at_ val oi
                             * at_ (map (fun x => x / $100) blend) idx)
                    (App.oxideValues blends) $0) App.oxideCols)
    (projected_oxides blends blend).
Proof.
  intro Hlen.
  change (mapi (fun (_ : string) oi =>
             reduce (fun sum val idx =>
                       sum + at_ val oi
                             * at_ (map (fun x => x / $100) blend) idx)
                    (App.oxideValues blends) $0) App.oxideCols)
    with (map (fun oi =>
             reduce (fun sum val idx =>
                       sum + at_ val oi
                             * at_ (map (fun x => x / $100) blend) idx)
                    (App.oxideValues blends) $0) (seq 0 9)).
  unfold projected_oxides. apply Forall2_map_in. intros oi _.
  rewrite (reduce_sigma
             (fun val idx =>
                at_ val oi * at_ (map (fun x => x / $100) blend) idx) []).
  unfold App.oxideValues at 1. rewrite length_map.
  apply sigma_num_eq. intros i Hi.
  rewrite (at_map _ _ NaN) by lia.
  rewrite <- (at_default blend i NaN) by lia. reflexivity.
Qed.

Lemma evaluate_sum_projection (vals blend : list number) (n : nat) :
  all_finite vals -> length vals = n -> length blend = n ->
  reduce (fun sum pct i => sum + pct * (at_ vals i || $0)) blend $0 / $100
  =~ sigma n (fun i => at_ blend i * at_ vals i) / $100.
Proof.
  intros Hv Hlv Hlb.
  rewrite (reduce_sigma (fun pct i => pct * (at_ vals i || $0)) NaN).
  rewrite Hlb. apply div_Proper; [|reflexivity].
  apply sigma_num_eq. intros i Hi.
  rewrite or_zero_finite by (apply at_finite; [exact Hv|lia]).
  reflexivity.
Qed.

Lemma currentPercents_finite (blends : list Body.blend) :
  Forall (fun b => isFinite (Body.current b) = true) blends ->
  currentPercents blends = map Body.current blends /\
  Forall current_not_infinite blends.
Proof.
  intro H. split.
  - unfold currentPercents. apply map_ext_in. intros b Hb.
    pose proof (proj1 (Forall_forall _ _) H b Hb) as Hf.
    cbv beta in Hf. revert Hf.
    destruct (Body.current b); intro Hf; try discriminate Hf. reflexivity.
  - revert H. apply Forall_impl. intros b Hb.
    split; intro E; rewrite E in Hb; discriminate.
Qed.

(** X9.  When the current percentages of all coals are finite numbers, the
    current blend has the AFT, the cost and the GCV that the evaluation of
    candidates gives to the same vector of percentages, whatever their
    sum. *)
Theorem currentBlend_as_candidate (blends : list Body.blend) :
  Forall (fun b => isFinite (Body.current b) = true) blends ->
  let c := App.currentBlend blends in
  let e := App.evaluate blends (map Body.current blends) in
  Forall2 num_eq (App.blend c) (App.blend e) /\
  App.predicted_aft c =~ App.predicted_aft e /\
  App.cost c =~ App.cost e /\
  App.gcv c =~ App.gcv e.
Proof.
  intros Hfin c e.
  destruct (currentPercents_finite blends Hfin) as [Epct Hni].
  assert (Hlen : length (map Body.current blends) = length blends)
    by apply length_map.
  subst c e. unfold App.currentBlend, App.evaluate.
  cbn [App.blend App.predicted_aft App.cost App.gcv].
  split; [|split; [|split]].
  - apply Forall2_map_in. intros b Hb. apply or_zero_finite.
    exact (proj1 (Forall_forall _ _) Hfin b Hb).
  - rewrite (calculateAFT_num_eq _ _
               (currentBlendedOxides_projection blends)).
    rewrite (calculateAFT_num_eq _ _
               (evaluate_oxides_projection blends _ Hlen)).
    rewrite Epct. reflexivity.
  - rewrite current_sum_projection;
      [|exact Hni|apply costsPerTon_finite
       |unfold App.costsPerTon; now rewrite length_map].
    rewrite (evaluate_sum_projection _ _ (length blends));
      [|apply costsPerTon_finite
       |unfold App.costsPerTon; now rewrite length_map|exact Hlen].
    rewrite Epct. reflexivity.
  - rewrite current_sum_projection;
      [|exact Hni|apply gcvValue_finite
       |unfold App.gcvValue; now rewrite length_map].
    rewrite (evaluate_sum_projection _ _ (length blends));
      [|apply gcvValue_finite
       |unfold App.gcvValue; now rewrite length_map|exact Hlen].
    rewrite Epct. reflexivity.
Qed.

Lemma currentBlend_as_candidate_witness :
  App.predicted_aft (App.currentBlend [coalA; coalB])
  =~ App.predicted_aft (App.evaluate [coalA; coalB] [$45; $45]).
Proof.
  apply (currentBlend_as_candidate [coalA; coalB]).
  repeat constructor.
Defined.

(** ** The standalone AFT of a coal *)

Lemma add_zero_r (a z : number) : z =~ $0 -> a + z =~ a.
Proof.
  destruct z as [z| | |]; simpl; try contradiction. intro Hz.
  destruct a as [a| | |]; simpl; auto. rewrite Hz. lra.
Qed.

Lemma fold_left_zero (f : nat -> number) (l : list nat) :
  (forall j, In j l -> f j =~ $0) ->
  forall acc, fold_left (fun s j => s + f j) l acc =~ acc.
Proof.
  induction l as [|x l IH]; intros H acc; simpl; [reflexivity|].
  rewrite IH by (intros j Hj; apply H; now right).
  apply add_zero_r, H. now left.
Qed.

(** A sum with one term that is not zero. *)
Lemma sigma_single (n i : nat) (f : nat -> number) :
  (i < n)%nat -> isFinite (f i) = true ->
  (forall j, (j < n)%nat -> j <> i -> f j =~ $0) ->
  sigma n f =~ f i.
Proof.
  intros Hi Hf Hz. unfold sigma.
  replace n with (i + S (n - S i))%nat by lia.
  rewrite seq_app, fold_left_app. cbn [seq fold_left Nat.add].
  rewrite fold_left_zero.
  - assert (E : fold_left (fun s j => s + f j) (seq 0 i) $0 =~ $0).
    { apply fold_left_zero. intros j Hj. apply in_seq in Hj.
      apply Hz; lia. }
    rewrite E. destruct (f i) as [x| | |]; try discriminate. simpl. lra.
  - intros j Hj. apply in_seq in Hj. apply Hz; lia.
Qed.

Lemma nine_entries (l : list number) :
  length l = 9%nat -> l = map (at_ l) (seq 0 9).
Proof.
  intro H. do 9 (destruct l as [|? l]; [discriminate|]).
  destruct l; [reflexivity|discriminate].
Qed.

Lemma single_coal_weight (n i j : nat) :
  (j < n)%nat ->
  at_ (single_coal_blend n i) j / $100
  =~ (if (j =? i)%nat then $1 else $0).
Proof.
  intro Hj. unfold single_coal_blend.
  rewrite (at_map _ _ 0%nat) by (now rewrite length_seq).
  rewrite seq_nth by exact Hj. cbn [Nat.add].
  destruct (j =? i)%nat; vm_compute; reflexivity.
Qed.

Lemma nth_error_mapi_from {A B : Type} (f : A -> nat -> B) (l : list A) :
  forall k i, nth_error (mapi_from f k l) i
              = option_map (fun x => f x (k + i)%nat) (nth_error l i).
Proof.
  induction l as [|a l IH]; intros k [|i]; simpl; try reflexivity.
  - now rewrite Nat.add_0_r.
  - rewrite IH. now replace (S k + i)%nat with (k + S i)%nat by lia.
Qed.

#[export] Instance isFinite_Proper : Proper (num_eq ==> eq) isFinite.
Proof. intros a a' Ha. num_cases; reflexivity. Qed.

Lemma mul_one_r (x w : number) :
  isFinite x = true -> w =~ $1 -> x * w =~ x.
Proof.
  destruct x as [x| | |]; try discriminate. intros _.
  destruct w as [w| | |]; simpl; try contradiction. intro Hw.
  rewrite Hw. lra.
Qed.

Lemma mul_zero_r (x w : number) :
  isFinite x = true -> w =~ $0 -> x * w =~ $0.
Proof.
  destruct x as [x| | |]; try discriminate. intros _.
  destruct w as [w| | |]; simpl; try contradiction. intro Hw.
  rewrite Hw. lra.
Qed.

(** The oxides of the blend made of one coal alone are those of the coal. *)
Lemma single_coal_oxides (blends : list Body.blend) (i : nat) :
  (i < length blends)%nat ->
  Forall2 num_eq
    (projected_oxides blends (single_coal_blend (length blends) i))
    (nth i (App.oxideValues blends) []).
Proof.
  intro Hi.
  assert (Hrow : forall j oi, (j < length blends)%nat -> (oi < 9)%nat ->
            isFinite (at_ (nth j (App.oxideValues blends) []) oi) = true).
  { intros j oi Hj Hoi.
    assert (Hin : In (nth j (App.oxideValues blends) [])
                     (App.oxideValues blends)).
    { apply nth_In. unfold App.oxideValues. now rewrite length_map. }
    destruct (oxideValues_rows _ _ Hin) as [Hfin Hnine].
    apply at_finite; [exact Hfin|lia]. }
  assert (Hnine : length (nth i (App.oxideValues blends) []) = 9%nat).
  { apply oxideValues_rows with (blends := blends).
    apply nth_In. unfold App.oxideValues. now rewrite length_map. }
  rewrite (nine_entries _ Hnine) at 1.
  unfold projected_oxides. apply Forall2_map_in. intros oi Hoi.
  apply in_seq in Hoi.
  assert (Ei : at_ (nth i (App.oxideValues blends) []) oi
               * (at_ (single_coal_blend (length blends) i) i / $100)
               =~ at_ (nth i (App.oxideValues blends) []) oi).
  { apply mul_one_r; [apply Hrow; lia|].
    rewrite single_coal_weight by exact Hi.
    rewrite Nat.eqb_refl. reflexivity. }
  etransitivity; [|exact Ei].
  apply (sigma_single (length blends) i
           (fun j => at_ (nth j (App.oxideValues blends) []) oi
                     * (at_ (single_coal_blend (length blends) i) j / $100))).
  - exact Hi.
  - rewrite Ei. apply Hrow; lia.
  - intros j Hj Hji. apply mul_zero_r; [apply Hrow; lia|].
    rewrite single_coal_weight by exact Hj.
    apply Nat.eqb_neq in Hji. rewrite Hji. reflexivity.
Qed.

(** X10.  The AFT reported for a coal among [individual_coal_afts] is the
    AFT that the evaluation of candidates gives to the blend made of 100
    percent of that coal and 0 percent of the others. *)
Theorem individual_aft_is_single_coal_blend (blends : list Body.blend)
  (i : nat) (name : string) (aft : number) :
  nth_error (App.individualCoalAFTs blends) i = Some (name, aft) ->
  aft =~ App.predicted_aft
           (App.evaluate blends (single_coal_blend (length blends) i)).
Proof.
  intro H. unfold App.individualCoalAFTs, mapi in H.
  rewrite nth_error_mapi_from in H.
  destruct (nth_error (App.oxideValues blends) i) as [vals|] eqn:E;
    [|discriminate].
  cbn [option_map] in H. injection H as _ <-.
  assert (Hi : (i < length blends)%nat).
  { assert (Hs : nth_error (App.oxideValues blends) i <> None)
      by (rewrite E; discriminate).
    apply nth_error_Some in Hs.
    unfold App.oxideValues in Hs. now rewrite length_map in Hs. }
  assert (Ev : vals = nth i (App.oxideValues blends) [])
    by (symmetry; apply nth_error_nth, E).
  assert (Hlen : length (single_coal_blend (length blends) i)
                 = length blends)
    by (unfold single_coal_blend; now rewrite length_map, length_seq).
  unfold App.evaluate. cbn [App.predicted_aft].
  rewrite (calculateAFT_num_eq _ _
             (evaluate_oxides_projection blends _ Hlen)).
  rewrite (calculateAFT_num_eq _ _ (single_coal_oxides blends i Hi)).
  rewrite Ev. reflexivity.
Qed.

Lemma individual_aft_is_single_coal_blend_witness :
  calculateAFT [$30; $5; $0; $0; $0; $0; $0; $0; $0]
  =~ App.predicted_aft (App.evaluate [coalA; coalB] [$0; $100]).
Proof.
  apply (individual_aft_is_single_coal_blend [coalA; coalB] 1 "B").
  reflexivity.
Defined.

(** ** Bounds that need no sanitising *)

Lemma round_half_up_int (z : Z) : round_half_up (inject_Z z) = z.
Proof.
  unfold round_half_up.
  pose proof (Qfloor_le (inject_Z z + (1 # 2))) as H1.
  pose proof (Qlt_floor (inject_Z z + (1 # 2))) as H2.
  set (f := Qfloor (inject_Z z + (1 # 2))) in *.
  rewrite inject_Z_plus in H2. change (inject_Z 1) with 1%Q in H2.
  assert (Hle : (inject_Z f < inject_Z (z + 1))%Q).
  { rewrite inject_Z_plus. change (inject_Z 1) with 1%Q. lra. }
  assert (Hge : (inject_Z z < inject_Z (f + 1))%Q).
  { rewrite inject_Z_plus. change (inject_Z 1) with 1%Q. lra. }
  rewrite <- Zlt_Qlt in Hle, Hge. lia.
Qed.

Lemma clamp_percent_int (z : Z) :
  (0 <= z <= 100)%Z -> clamp_percent (inject_Z z) = inject_Z z.
Proof.
  intros [H0 H100]. unfold clamp_percent.
  assert (E0 : Qltb (inject_Z z) 0 = false).
  { apply Qltb_ge. change 0%Q with (inject_Z 0). now rewrite <- Zle_Qle. }
  assert (E100 : Qltb 100 (inject_Z z) = false).
  { apply Qltb_ge. change 100%Q with (inject_Z 100). now rewrite <- Zle_Qle. }
  now rewrite E0, E100.
Qed.

(** X11.  Bounds that are already integers with [0 <= min <= max <= 100]
    are used for the enumeration as they are: sanitising changes nothing. *)
Theorem sanitizeBounds_fixed (b : Body.blend) (lo hi : Z) :
  Body.min b = of_int lo -> Body.max b = of_int hi ->
  (0 <= lo <= hi)%Z -> (hi <= 100)%Z ->
  App.sanitizeBounds b = (of_int lo, of_int hi) /\
  App.intBounds [b] = [(lo, hi)].
Proof.
  intros Hmin Hmax Hlo Hhi.
  assert (E : sanitized_pair (Body.min b) (Body.max b) = (lo, hi)).
  { unfold sanitized_pair. rewrite Hmin, Hmax. cbn [finite_or of_int].
    rewrite !clamp_percent_int, !round_half_up_int by lia.
    now rewrite Z.max_r by lia. }
  split.
  - rewrite sanitizeBounds_pair, E. reflexivity.
  - rewrite intBounds_sanitized. cbn [map]. now rewrite E.
Qed.

Lemma sanitizeBounds_fixed_witness :
  App.sanitizeBounds coalA = (of_int 40, of_int 60) /\
  App.intBounds [coalA] = [(40, 60)%Z].
Proof.
  apply (sanitizeBounds_fixed coalA 40 60); try reflexivity; lia.
Defined.

(** ** When the AFT is a finite number *)

Lemma finite_add_inv (a b : number) :
  isFinite (a + b) = true -> isFinite a = true /\ isFinite b = true.
Proof. destruct a, b; simpl; try discriminate; auto. Qed.

Lemma finite_sub_inv (a b : number) :
  isFinite (a - b) = true -> isFinite a = true /\ isFinite b = true.
Proof. destruct a, b; simpl; try discriminate; auto. Qed.

Lemma finite_scale_inv (c : Q) (x : number) :
  isFinite ($c * x) = true -> isFinite x = true.
Proof.
  destruct x; simpl; try discriminate; auto;
    unfold scale_inf; destruct (Qeq_bool c 0); try discriminate;
    destruct (Qltb 0 c); discriminate.
Qed.

(** The inversion steps of a sum of scaled oxides. *)
Ltac finite_inv :=
  repeat match goal with
  | H : isFinite (_ + _) = true |- _ =>
      apply finite_add_inv in H; destruct H
  | H : isFinite (_ - _) = true |- _ =>
      apply finite_sub_inv in H; destruct H
  | H : isFinite (Fin _ * _) = true |- _ => apply finite_scale_inv in H
  end.

(** X12.  [calculateAFT] never makes a finite temperature of an oxide
    vector with a gap: when one of the nine values it reads is missing, NaN
    or infinite, the result is NaN or infinite. *)
Theorem calculateAFT_not_finite (values : list number) (i : nat) :
  (i < 9)%nat -> isFinite (at_ values i) = false ->
  isFinite (calculateAFT values) = false.
Proof.
  intros Hi Hv. apply not_true_is_false. intro H.
  assert (H9 : isFinite (at_ values 0) = true /\
               isFinite (at_ values 1) = true /\
               isFinite (at_ values 2) = true /\
               isFinite (at_ values 3) = true /\
               isFinite (at_ values 4) = true /\
               isFinite (at_ values 5) = true /\
               isFinite (at_ values 6) = true /\
               isFinite (at_ values 7) = true /\
               isFinite (at_ values 8) = true).
  { unfold calculateAFT in H. cbv zeta in H.
    destruct (at_ values 0 + at_ values 1 <? $55);
      [|destruct ((at_ values 0 + at_ values 1 >=? $55)
                  && (at_ values 0 + at_ values 1 <? $75))];
      finite_inv; repeat split; assumption. }
  assert (Ht : isFinite (at_ values i) = true).
  { do 9 (destruct i as [|i]; [tauto|]). lia. }
  congruence.
Qed.

(** A vector of two values only. *)
Lemma calculateAFT_not_finite_witness :
  isFinite (calculateAFT [$50; $5]) = false.
Proof.
  apply (calculateAFT_not_finite [$50; $5] 2); [lia|reflexivity].
Defined.

(* ================================================================== *)
(** * Properties of authentication, trials and locks *)
(* ================================================================== *)

Import Server.

(** ** The user collection *)

Lemma findById_save_same (uid : string) (u user : User) (db : Users) :
  findById uid db = Some user -> findById uid (save uid u db) = Some u.
Proof.
  induction db as [|[k u'] db IH]; simpl; [discriminate|].
  destruct (String.eqb k uid) eqn:E; simpl; rewrite E; auto.
Qed.

Lemma findById_save_other (uid uid' : string) (u : User) (db : Users) :
  uid' <> uid -> findById uid' (save uid u db) = findById uid' db.
Proof.
  intro Hne. induction db as [|[k u'] db IH]; simpl; [reflexivity|].
  destruct (String.eqb k uid) eqn:E; simpl.
  - apply String.eqb_eq in E. subst k.
    destruct (String.eqb uid uid') eqn:E'; [|reflexivity].
    apply String.eqb_eq in E'. congruence.
  - destruct (String.eqb k uid'); [reflexivity|exact IH].
Qed.

Lemma findOne_findById (key uid : string) (user : User) (db : Users) :
  findOne key db = Some (uid, user) ->
  exists user', findById uid db = Some user'.
Proof.
  induction db as [|[k u'] db IH]; simpl; [discriminate|].
  destruct (String.eqb (email u') key).
  - intro H. injection H as -> ->. rewrite String.eqb_refl. eauto.
  - intro H. destruct (String.eqb k uid); eauto.
Qed.

(** What [requireAuth] granted. *)
Lemma requireAuth_granted (now : Z) (st : State) (uid : string)
  (user : User) :
  requireAuth now st = Granted uid user ->
  session st = Some uid /\ findById uid (users st) = Some user /\
  lockedAt user now = None.
Proof.
  unfold requireAuth. destruct (session st) as [k|]; [|discriminate].
  destruct (findById k (users st)) as [u|] eqn:E; [|discriminate].
  destruct (lockedAt u now) eqn:L; [discriminate|].
  intro H. injection H as -> ->. auto.
Qed.

(** What [requireAuth] does when it refuses. *)
Lemma requireAuth_refused (now : Z) (st : State) (r : reply) (st' : State) :
  requireAuth now st = Refused r st' ->
  users st' = users st /\ is_result r = false /\
  (r = Unauthorized "Not authenticated" \/
   r = Unauthorized "User not found" \/ exists t, r = Locked t).
Proof.
  unfold requireAuth. destruct (session st) as [k|].
  - destruct (findById k (users st)) as [u|].
    + destruct (lockedAt u now) as [t|]; [|discriminate].
      intro H. injection H as <- <-. repeat split; eauto.
    + intro H. injection H as <- <-. repeat split; auto.
  - intro H. injection H as <- <-. repeat split; auto.
Qed.

(** A session that has ended is an empty one: the collection is as it
    was. *)
Lemma arrive_users (clock : Clock) (st : State) :
  users (arrive clock st) = users st.
Proof. unfold arrive. destruct (session_alive clock); reflexivity. Qed.

Lemma arrive_alive (clock : Clock) (st : State) :
  session_alive clock = true -> arrive clock st = st.
Proof. unfold arrive. now intros ->. Qed.

Lemma arrive_ended (clock : Clock) (st : State) :
  session_alive clock = false ->
  arrive clock st = {| users := users st; session := None |}.
Proof. unfold arrive. now intros ->. Qed.

(** [requireAuth] lets no request pass whose session has ended. *)
Lemma requireAuth_arrive (clock : Clock) (st : State) (uid : string)
  (user : User) :
  requireAuth (at_auth clock) (arrive clock st) = Granted uid user ->
  session_alive clock = true /\ arrive clock st = st.
Proof.
  unfold arrive. destruct (session_alive clock); [auto|discriminate].
Qed.

(** ** Numbers of trials *)

Lemma inject_Z_pred (n : Z) : (inject_Z (n - 1) == inject_Z n - 1)%Q.
Proof.
  unfold Z.sub. rewrite inject_Z_plus. simpl. unfold Qminus. reflexivity.
Qed.

Lemma inject_Z_ge_1 (n : Z) : (0 < inject_Z n)%Q -> (1 <= n)%Z.
Proof.
  intro H. change 0%Q with (inject_Z 0) in H. rewrite <- Zlt_Qlt in H. lia.
Qed.

(** A user that is not out of trials has a positive number of them. *)
Lemma not_exhausted_inv (t : number) :
  ((t || $0) <=? $0) = false ->
  (t || $0) = t /\ (t = PosInf \/ exists q, t = Fin q /\ (0 < q)%Q).
Proof.
  destruct t as [q| | |]; unfold or_else; simpl; try discriminate.
  - destruct (Qeq_bool q 0) eqn:E; simpl; intro H; qprop; [lra|].
    split; [reflexivity|]. right. exists q. split; [reflexivity|lra].
  - auto.
Qed.

Lemma trial_spent (t : number) (n : Z) :
  t =~ of_int n -> ((t || $0) <=? $0) = false ->
  (1 <= n)%Z /\
  Math_max [$0; (t || $0) - $1] =~ of_int (n - 1) /\
  (Math_max [$0; (t || $0) - $1] <=? $0) = (n =? 1)%Z.
Proof.
  intros Ht Hex. destruct (not_exhausted_inv t Hex) as [-> [->|[q [-> Hq]]]];
    [contradiction|].
  simpl in Ht. rewrite Ht in Hq. pose proof (inject_Z_ge_1 n Hq) as Hn.
  split; [exact Hn|].
  assert (Hq1 : (0 <= q - 1)%Q).
  { rewrite Ht, <- inject_Z_pred. apply inject_Z_nonneg. lia. }
  unfold sub. simpl. rewrite Math_max_pair.
  destruct (Qltb 0 (q + - (1))) eqn:E; qprop.
  - split.
    + simpl. rewrite inject_Z_pred, Ht. unfold Qminus. reflexivity.
    + simpl. destruct (Z.eqb_spec n 1) as [->|Hn1].
      * exfalso. change (inject_Z 1) with 1%Q in Ht. lra.
      * qprop. assert (2 <= n)%Z by lia. assert (inject_Z 2 <= inject_Z n)%Q by (now rewrite <- Zle_Qle). change (inject_Z 2) with 2%Q in *. lra.
  - assert (Hz : (q == 1)%Q) by lra.
    assert (n = 1)%Z.
    { apply inject_Z_injective. rewrite <- Ht. exact Hz. }
    subst n. split; [simpl; reflexivity|reflexivity].
Qed.

Lemma findById_save (uid uid' : string) (u : User) (db : Users) :
  findById uid' (save uid u db)
  = match findById uid db with
    | Some _ => if String.eqb uid uid' then Some u else findById uid' db
    | None => findById uid' db
    end.
Proof.
  induction db as [|[k u'] db IH]; simpl; [reflexivity|].
  destruct (String.eqb k uid) eqn:E; simpl.
  - apply String.eqb_eq in E. subst k.
    destruct (String.eqb uid uid'); reflexivity.
  - rewrite IH. destruct (String.eqb k uid') eqn:E'.
    + apply String.eqb_eq in E'. subst k.
      destruct (findById uid db); [rewrite String.eqb_sym, E|]; reflexivity.
    + reflexivity.
Qed.

(** X14.  An [/optimize] request that is answered with a result costs the
    session user exactly one trial.  For a user stored with [n] trials the
    result is only given when [n >= 1]; afterwards [n - 1] trials are
    stored, the account is locked until 24 hours after the reading of the
    clock exactly when that was the last trial, the address is recorded in
    [lastIP] and at the end of [ipHistory], the session is kept and no
    other user is touched. *)
Theorem result_costs_one_trial (clock : Clock) (ip : option string)
  (body : blends_field) (st st' : State) (r : reply) (uid : string)
  (user : User) (n : Z) :
  session st = Some uid -> findById uid (users st) = Some user ->
  trialsLeft user =~ of_int n ->
  optimizeRoute clock ip body st = (r, st') -> is_result r = true ->
  (1 <= n)%Z /\ session st' = Some uid /\
  (exists user',
     findById uid (users st') = Some user' /\
     trialsLeft user' =~ of_int (n - 1) /\
     lockedUntil user'
     = (if (n =? 1)%Z then Some (at_lock clock + day)%Z
        else lockedUntil user) /\
     email user' = email user /\ lastIP user' = ip /\
     ipHistory user' = ipHistory user ++ [(ip, at_history clock)]) /\
  (forall uid', uid' <> uid ->
     findById uid' (users st') = findById uid' (users st)).
Proof.
  intros Hs Hf Ht. unfold optimizeRoute. cbv zeta.
  destruct (requireAuth (at_auth clock) (arrive clock st))
    as [r0 st0|uid0 user0] eqn:Ha.
  { intro H. injection H as <- <-.
    destruct (requireAuth_refused _ _ _ _ Ha) as (_ & -> & _). discriminate. }
  destruct (requireAuth_arrive _ _ _ _ Ha) as [_ Hst]. rewrite Hst in *.
  destruct (requireAuth_granted _ _ _ _ Ha) as (Hs0 & Hf0 & _).
  rewrite Hs in Hs0. injection Hs0 as <-.
  rewrite Hf in Hf0. injection Hf0 as <-.
  unfold optimizeHandler.
  destruct (lockedAt user (at_check clock));
    [intro H; injection H as <- <-; discriminate|].
  destruct ((trialsLeft user || $0) <=? $0) eqn:Hex;
    [intro H; injection H as <- <-; discriminate|].
  destruct (trial_spent _ _ Ht Hex) as (Hn & Hv & Hl).
  destruct (App.optimize (maxArguments clock) body) as [e|e|e|result];
    intro H; injection H as <- <-; try discriminate.
  intros _. cbn [users session]. repeat split; auto.
  - eexists. split; [apply (findById_save_same _ _ _ _ Hf)|].
    cbn [trialsLeft lockedUntil email lastIP ipHistory].
    rewrite Hl. auto.
  - intros uid' Hne. now apply findById_save_other.
Qed.

(** X15.  An [/optimize] request that is answered without a result (401,
    403, 400, 404 or 500) charges nothing: every stored user keeps its
    [trialsLeft], [lastIP] and [ipHistory], so the address noted before the
    body is checked is not saved; and unless the answer is 'Trials
    exhausted', the collection is left as it was. *)
Theorem no_result_no_charge (clock : Clock) (ip : option string)
  (body : blends_field) (st st' : State) (r : reply) :
  optimizeRoute clock ip body st = (r, st') -> is_result r = false ->
  (r <> Exhausted -> users st' = users st) /\
  (forall uid user',
     findById uid (users st') = Some user' ->
     exists user,
       findById uid (users st) = Some user /\
       trialsLeft user' = trialsLeft user /\
       lastIP user' = lastIP user /\ ipHistory user' = ipHistory user).
Proof.
  unfold optimizeRoute. cbv zeta.
  destruct (requireAuth (at_auth clock) (arrive clock st))
    as [r0 st0|uid user] eqn:Ha.
  - intro H. injection H as <- <-.
    destruct (requireAuth_refused _ _ _ _ Ha) as (E & _).
    rewrite arrive_users in E. rewrite E. intros _.
    split; [reflexivity|]. intros uid user' Hu. exists user'. auto.
  - destruct (requireAuth_arrive _ _ _ _ Ha) as [_ Hst]. rewrite Hst in *.
    apply requireAuth_granted in Ha. destruct Ha as (Hs & Hf & _).
    unfold optimizeHandler.
    destruct (lockedAt user (at_check clock)).
    { intro H. injection H as <- <-. intros _.
      split; [reflexivity|]. intros k user' Hu. exists user'. auto. }
    destruct ((trialsLeft user || $0) <=? $0).
    { intro H. injection H as <- <-. intros _. split; [congruence|].
      cbn [users]. intros k user'. rewrite findById_save, Hf.
      destruct (String.eqb uid k) eqn:E.
      - apply String.eqb_eq in E. subst k. intro H. injection H as <-.
        exists user. auto.
      - intro H. exists user'. auto. }
    destruct (App.optimize (maxArguments clock) body);
      intro H; injection H as <- <-;
      try discriminate; intros _;
      (split; [reflexivity|]; intros k user' Hu; exists user'; auto).
Qed.

(** What a request does to the collection: nothing, or one document is
    saved, in one of five ways. *)
Lemma findOne_unique (key uid : string) (user : User) (db : Users) :
  NoDup (map fst db) -> findOne key db = Some (uid, user) ->
  findById uid db = Some user.
Proof.
  induction db as [|[k u'] db IH]; simpl; [discriminate|].
  intros Hnd. inversion Hnd as [|k' ks Hk Hnd']; subst.
  destruct (String.eqb (email u') key).
  - intro H. injection H as -> ->. now rewrite String.eqb_refl.
  - intro H. destruct (String.eqb k uid) eqn:E; [|auto].
    apply String.eqb_eq in E. subst k. exfalso. apply Hk.
    specialize (IH Hnd' H). clear - IH.
    induction db as [|[k u] db IHdb]; simpl in *; [discriminate|].
    destruct (String.eqb k uid) eqn:E; [|auto].
    apply String.eqb_eq in E. now left.
Qed.

Lemma save_ids (uid : string) (u : User) (db : Users) :
  map fst (save uid u db) = map fst db.
Proof.
  induction db as [|[k u'] db IH]; simpl; [reflexivity|].
  destruct (String.eqb k uid); simpl; [reflexivity|now rewrite IH].
Qed.

Lemma handle_cases (req : request) (st st' : State) (r : reply) :
  NoDup (map fst (users st)) ->
  handle req st = (r, st') ->
  (users st' = users st /\ is_result r = false) \/
  exists uid user user',
    findById uid (users st) = Some user /\
    users st' = save uid user' (users st) /\
    ((session st = Some uid /\ is_result r = true /\
      exhausted user = false /\
      session st' = session st /\
      trialsLeft user' = Math_max [$0; (trialsLeft user || $0) - $1] /\
      (exists clock,
         clock_of req = Some clock /\
         lockedUntil user'
         = if trialsLeft user' <=? $0 then Some (at_lock clock + day)%Z
           else lockedUntil user)) \/
     (session st = Some uid /\ is_result r = false /\
      exhausted user = true /\ session st' = None /\
      trialsLeft user' = trialsLeft user /\
      exists clock,
        clock_of req = Some clock /\
        lockedUntil user' = Some (at_lock clock + day)%Z) \/
     (session st = Some uid /\ is_result r = false /\
      ((trialsLeft user || $0) - $1 <=? $0) = true /\ session st' = None /\
      trialsLeft user' = $0 /\
      exists clock,
        clock_of req = Some clock /\
        lockedUntil user' = Some (at_lock clock + day)%Z) \/
     (session st = Some uid /\ is_result r = false /\
      ((trialsLeft user || $0) - $1 <=? $0) = false /\
      trialsLeft user' = (trialsLeft user || $0) - $1 /\
      lockedUntil user' = lockedUntil user) \/
     (is_result r = false /\
      trialsLeft user' = trialsLeft user /\
      lockedUntil user' = lockedUntil user)).
Proof.
  intro Hnd.
  destruct req as [clock ip body|clock|key hasPassword passwordOk clock ip|];
    simpl.
  - unfold optimizeRoute. cbv zeta.
    destruct (requireAuth (at_auth clock) (arrive clock st))
      as [r0 st0|uid user] eqn:Ha.
    { intro H. injection H as <- <-.
      destruct (requireAuth_refused _ _ _ _ Ha) as (E & -> & _).
      rewrite arrive_users in E. auto. }
    destruct (requireAuth_arrive _ _ _ _ Ha) as [_ Hst]. rewrite Hst in *.
    apply requireAuth_granted in Ha. destruct Ha as (Hs & Hf & _).
    unfold optimizeHandler.
    destruct (lockedAt user (at_check clock));
      [intro H; injection H as <- <-; auto|].
    destruct ((trialsLeft user || $0) <=? $0) eqn:Hex.
    { intro H. injection H as <- <-. right.
      eexists uid, user, _. split; [exact Hf|]. split; [reflexivity|].
      right. left. repeat split; eauto. }
    destruct (App.optimize (maxArguments clock) body);
      intro H; injection H as <- <-; auto.
    right. eexists uid, user, _. split; [exact Hf|]. split; [reflexivity|].
    left. repeat split; eauto.
  - unfold consumeTrialRoute. cbv zeta.
    destruct (requireAuth (at_auth clock) (arrive clock st))
      as [r0 st0|uid user] eqn:Ha.
    { intro H. injection H as <- <-.
      destruct (requireAuth_refused _ _ _ _ Ha) as (E & -> & _).
      rewrite arrive_users in E. auto. }
    destruct (requireAuth_arrive _ _ _ _ Ha) as [_ Hst]. rewrite Hst in *.
    apply requireAuth_granted in Ha. destruct Ha as (Hs & Hf & _).
    unfold consumeTrialHandler.
    destruct (lockedAt user (at_check clock));
      [intro H; injection H as <- <-; auto|].
    destruct ((trialsLeft user || $0) - $1 <=? $0) eqn:Hex;
      intro H; injection H as <- <-; right;
      eexists uid, user, _; (split; [exact Hf|]); (split; [reflexivity|]).
    + right. right. left. repeat split; eauto.
    + right. right. right. left. repeat split; eauto.
  - unfold loginRoute. cbv zeta.
    pose proof (arrive_users clock st) as Hu.
    destruct key as [key|];
      [|intro H; injection H as <- <-; auto].
    destruct (negb hasPassword); [intro H; injection H as <- <-; auto|].
    rewrite Hu.
    destruct (findOne key (users st)) as [[uid user]|] eqn:Hf;
      [|intro H; injection H as <- <-; auto].
    destruct (lockedAt user (at_check clock));
      [intro H; injection H as <- <-; auto|].
    destruct (negb passwordOk); intro H; injection H as <- <-; auto.
    right. apply (findOne_unique _ _ _ _ Hnd) in Hf.
    eexists uid, user, _. split; [exact Hf|]. split; [reflexivity|].
    do 4 right. auto.
  - unfold logoutRoute. intro H. injection H as <- <-. auto.
Qed.

(** No route adds or removes a user. *)
Lemma handle_ids (req : request) (st st' : State) (r : reply) :
  NoDup (map fst (users st)) -> handle req st = (r, st') ->
  map fst (users st') = map fst (users st).
Proof.
  intros Hnd H. destruct (handle_cases _ _ _ _ Hnd H)
    as [[-> _]|(uid & user & user' & _ & -> & _)];
    [reflexivity|apply save_ids].
Qed.

Lemma trials_within_step (t : number) (n : Z) :
  ((t || $0) <=? of_int n) = true -> ((t || $0) <=? $0) = false ->
  (1 <= n)%Z /\
  ((Math_max [$0; (t || $0) - $1] || $0) <=? of_int (n - 1)) = true.
Proof.
  intros Hw Hex.
  destruct (not_exhausted_inv t Hex) as [Ho [->|[q [-> Hq]]]];
    rewrite Ho in *; [discriminate|].
  apply le_Fin in Hw.
  assert (Hn : (1 <= n)%Z) by (apply inject_Z_ge_1; lra).
  split; [exact Hn|].
  unfold sub. simpl. rewrite Math_max_pair. unfold or_else, truthy.
  pose proof (inject_Z_pred n) as Hp.
  assert (0 <= inject_Z (n - 1))%Q by (apply inject_Z_nonneg; lia).
  destruct (Qltb 0 (q + - (1))) eqn:E; qprop.
  - destruct (Qeq_bool (q + - (1)) 0); simpl; qprop; lra.
  - simpl. qprop. lra.
Qed.

Lemma trials_within_consume (t : number) (n : Z) :
  (0 <= n)%Z -> ((t || $0) <=? of_int n) = true ->
  (((if (t || $0) - $1 <=? $0 then $0 else (t || $0) - $1) || $0)
   <=? of_int n) = true.
Proof.
  intros Hn Hw. pose proof (inject_Z_nonneg n Hn) as Hq.
  destruct ((t || $0) - $1 <=? $0) eqn:E.
  - simpl. qprop. exact Hq.
  - revert Hw E. destruct t as [q| | |]; unfold or_else, truthy, sub; simpl;
      try discriminate.
    destruct (Qeq_bool q 0) eqn:E0; simpl; intros Hw E; qprop; [lra|].
    destruct (Qeq_bool (q + - (1)) 0); simpl; qprop; lra.
Qed.

Lemma handle_trials (req : request) (st st' : State) (r : reply)
  (uid : string) (user : User) (n : Z) :
  NoDup (map fst (users st)) -> (0 <= n)%Z ->
  handle req st = (r, st') ->
  findById uid (users st) = Some user -> trials_within user n = true ->
  exists user',
    findById uid (users st') = Some user' /\
    if served_to uid (session st, r)
    then (1 <= n)%Z /\ trials_within user' (n - 1) = true
    else trials_within user' n = true.
Proof.
  intros Hnd Hn H Hf Hw. unfold served_to. cbn [fst snd].
  destruct (handle_cases _ _ _ _ Hnd H)
    as [[-> ->]|(k & u & u' & Hk & -> & Hc)].
  { exists user. split; [exact Hf|].
    destruct (session st); rewrite ?andb_false_r; exact Hw. }
  rewrite findById_save, Hk.
  destruct (String.eqb k uid) eqn:E.
  - apply String.eqb_eq in E. subst k. rewrite Hf in Hk. injection Hk as <-.
    exists u'. split; [reflexivity|]. unfold trials_within in *.
    destruct Hc as [(-> & -> & Hex & _ & -> & _)|[(-> & -> & _ & _ & -> & _)|
      [(-> & -> & Hex & _ & -> & _)|[(-> & -> & Hex & -> & _)|(-> & -> & _)]]]];
      rewrite ?String.eqb_refl, ?andb_false_r; cbn [andb];
      try (destruct (session st); rewrite ?andb_false_r; exact Hw).
    + apply trials_within_step; assumption.
    + pose proof (trials_within_consume _ _ Hn Hw) as Hc.
      rewrite Hex in Hc. exact Hc.
    + pose proof (trials_within_consume _ _ Hn Hw) as Hc.
      rewrite Hex in Hc. exact Hc.
  - exists user. split; [exact Hf|].
    assert (Hr : (match session st with
                  | Some k0 => String.eqb k0 uid && is_result r
                  | None => false
                  end) = false).
    { destruct (session st) as [k0|] eqn:Hs; [|reflexivity].
      destruct (String.eqb k0 uid) eqn:E0; [|reflexivity].
      apply String.eqb_eq in E0. subst k0.
      destruct Hc as [(Hs' & _)|[(Hs' & -> & _)|[(Hs' & -> & _)|
        [(Hs' & -> & _)|(-> & _)]]]]; try reflexivity.
      injection Hs' as <-. rewrite String.eqb_refl in E. discriminate. }
    rewrite Hr. exact Hw.
Qed.

Lemma serve_cons (req : request) (reqs : list request) (st : State) :
  serve (req :: reqs) st
  = ((session st, fst (handle req st))
       :: fst (serve reqs (snd (handle req st))),
     snd (serve reqs (snd (handle req st)))).
Proof.
  simpl. destruct (handle req st) as [r st']. simpl.
  destruct (serve reqs st'). reflexivity.
Qed.

(** X16.  Over any sequence of requests of a client to [/optimize],
    [/consume-trial], [/auth/login] and [/auth/logout], handled one after
    the other, a user stored with at most [n] trials gets at most [n]
    optimisation results, the ids of the stored users being distinct: no
    route gives trials back, and a user without trials never gets a result
    again. *)
Theorem results_bounded_by_trials (reqs : list request) (st : State)
  (uid : string) (user : User) (n : nat) :
  NoDup (map fst (users st)) ->
  findById uid (users st) = Some user ->
  trials_within user (Z.of_nat n) = true ->
  (results_served uid (fst (serve reqs st)) <= n)%nat.
Proof.
  revert st user n. induction reqs as [|req reqs IH]; intros st user n Hnd Hf Hw.
  - apply Nat.le_0_l.
  - rewrite serve_cons. cbn [fst]. unfold results_served. cbn [filter].
    destruct (handle req st) as [r st'] eqn:H. cbn [fst snd].
    destruct (handle_trials req st st' r uid user (Z.of_nat n) Hnd
                ltac:(lia) H Hf Hw) as (user' & Hf' & Hstep).
    assert (Hnd' : NoDup (map fst (users st'))).
    { now rewrite (handle_ids _ _ _ _ Hnd H). }
    destruct (served_to uid (session st, r)).
    + destruct Hstep as [H1 Hw']. destruct n as [|n]; [lia|].
      replace (Z.of_nat (S n) - 1)%Z with (Z.of_nat n) in Hw' by lia.
      specialize (IH st' user' n Hnd' Hf' Hw').
      unfold results_served in IH. simpl. lia.
    + exact (IH st' user' n Hnd' Hf' Hstep).
Qed.

Lemma has_trials (t : number) (n : Z) :
  t =~ of_int n -> (1 <= n)%Z -> ((t || $0) <=? $0) = false.
Proof.
  intros Ht Hn. destruct t as [q| | |]; try contradiction. simpl in Ht.
  assert (inject_Z 1 <= inject_Z n)%Q by (now rewrite <- Zle_Qle).
  change (inject_Z 1) with 1%Q in *.
  unfold or_else, truthy. destruct (Qeq_bool q 0) eqn:E; simpl; qprop; lra.
Qed.

Lemma not_locked (user : User) (now : Z) :
  lockedUntil user = None -> lockedAt user now = None.
Proof. unfold lockedAt. now intros ->. Qed.

(** X17.  A logged-in user stored with [n] trials and no lock gets a
    result for each of its first [n] consecutive [/optimize] requests that
    arrive while its session is held and whose optimisation answers with
    status 200. *)
Theorem trials_are_honoured (reqs : list request) (st : State)
  (uid : string) (user : User) (n : Z) :
  session st = Some uid -> findById uid (users st) = Some user ->
  trialsLeft user =~ of_int n -> lockedUntil user = None ->
  Forall (fun req =>
            exists clock ip body result,
              req = PostOptimize clock ip body /\
              session_alive clock = true /\
              App.optimize (maxArguments clock) body
              = App.Status200 result) reqs ->
  (Z.of_nat (length reqs) <= n)%Z ->
  results_served uid (fst (serve reqs st)) = length reqs.
Proof.
  revert st user n.
  induction reqs as [|req reqs IH]; intros st user n Hs Hf Ht Hl Hreqs Hn.
  - reflexivity.
  - inversion Hreqs
      as [|? ? (clock & ip & body & result & -> & Ha & Hb) Hreqs'].
    subst. rewrite serve_cons. cbn [fst]. unfold results_served.
    cbn [filter handle]. cbn [length] in Hn.
    assert (Hex : ((trialsLeft user || $0) <=? $0) = false)
      by (apply (has_trials _ n Ht); lia).
    destruct (trial_spent _ _ Ht Hex) as (_ & Hv & Hz).
    unfold optimizeRoute. cbv zeta. rewrite (arrive_alive _ _ Ha).
    unfold requireAuth. rewrite Hs, Hf, (not_locked _ _ Hl).
    unfold optimizeHandler. rewrite (not_locked _ _ Hl), Hex, Hb.
    cbn [fst snd]. unfold served_to at 1. cbn [fst snd is_result].
    rewrite String.eqb_refl. cbn [andb length]. f_equal.
    destruct reqs as [|req' reqs]; [reflexivity|].
    cbn [length] in Hn.
    eapply (IH _ _ (n - 1)%Z); cbn [session users]; auto.
    + apply (findById_save_same _ _ _ _ Hf).
    + exact Hv.
    + cbn [lockedUntil]. rewrite Hz.
      destruct (Z.eqb_spec n 1); [lia|exact Hl].
    + cbn [length]. lia.
Qed.

Lemma le_zero_exhausted (t : number) :
  (t <=? $0) = true -> ((t || $0) <=? $0) = true.
Proof.
  destruct t as [q| | |]; unfold or_else, truthy; simpl; try discriminate;
    auto.
  destruct (Qeq_bool q 0); simpl; auto.
Qed.

(** X18.  A request changes the [lockedUntil] of a stored user only when
    it comes with the session of that user and leaves the user without
    trials; the new date is 24 hours after the reading of the clock, and
    unless the request got an optimisation result the session is
    destroyed. *)
Theorem locked_only_when_exhausted (req : request) (st st' : State)
  (r : reply) (uid : string) (user user' : User) :
  NoDup (map fst (users st)) -> handle req st = (r, st') ->
  findById uid (users st) = Some user ->
  findById uid (users st') = Some user' ->
  lockedUntil user' <> lockedUntil user ->
  session st = Some uid /\ exhausted user' = true /\
  (is_result r = false -> session st' = None) /\
  exists clock,
    clock_of req = Some clock /\
    lockedUntil user' = Some (at_lock clock + day)%Z.
Proof.
  intros Hnd H Hf Hf' Hne.
  destruct (handle_cases _ _ _ _ Hnd H)
    as [[Hu _]|(k & u & u' & Hk & Hu & Hc)].
  { rewrite Hu in Hf'. congruence. }
  rewrite Hu, findById_save, Hk in Hf'.
  destruct (String.eqb k uid) eqn:E; [|congruence].
  apply String.eqb_eq in E. subst k. injection Hf' as ->.
  rewrite Hf in Hk. injection Hk as <-. unfold exhausted.
  destruct Hc as [(Hs & Hr & _ & _ & Ht & clock & Hc & Hl)|
    [(Hs & Hr & Hex & Hs' & Ht & clock & Hc & Hl)|
    [(Hs & Hr & _ & Hs' & Ht & clock & Hc & Hl)|
    [(_ & _ & _ & _ & Hl)|(_ & _ & Hl)]]]]; try congruence.
  - destruct (trialsLeft user' <=? $0) eqn:Hz; [|congruence].
    repeat split; auto.
    + now apply le_zero_exhausted.
    + congruence.
    + eauto.
  - rewrite Ht. repeat split; eauto.
  - rewrite Ht. repeat split; eauto.
Qed.

Lemma findById_In (uid : string) (user : User) (db : Users) :
  findById uid db = Some user -> In (uid, user) db.
Proof.
  induction db as [|[k u] db IH]; simpl; [discriminate|].
  destruct (String.eqb k uid) eqn:E; [|auto].
  apply String.eqb_eq in E. intro H. injection H as ->. subst. now left.
Qed.

Lemma Forall_save (P : string * User -> Prop) (uid : string) (u : User)
  (db : Users) :
  Forall P db -> (forall k, P (k, u)) -> Forall P (save uid u db).
Proof.
  intros Hdb Hu. induction Hdb as [|[k u'] db Hk Hdb IH]; simpl;
    [constructor|].
  destruct (String.eqb k uid); constructor; auto.
Qed.

Lemma spent_nonneg (t : number) :
  ($0 <=? Math_max [$0; (t || $0) - $1]) = true.
Proof.
  destruct t as [q| | |]; unfold or_else, truthy, sub; simpl;
    try reflexivity.
  destruct (Qeq_bool q 0); cbn [negb add neg]; rewrite Math_max_pair;
    simpl; qcases; lra.
Qed.

Lemma consumed_nonneg (t : number) :
  ((t || $0) - $1 <=? $0) = false -> ($0 <=? (t || $0) - $1) = true.
Proof.
  destruct t as [q| | |]; unfold or_else, truthy, sub; simpl;
    try discriminate; try reflexivity.
  destruct (Qeq_bool q 0); simpl; intro H; qprop; lra.
Qed.

Lemma handle_nonneg (req : request) (st st' : State) (r : reply) :
  NoDup (map fst (users st)) -> handle req st = (r, st') ->
  Forall (fun ku => trials_nonneg (snd ku) = true) (users st) ->
  Forall (fun ku => trials_nonneg (snd ku) = true) (users st').
Proof.
  intros Hnd H Hall.
  destruct (handle_cases _ _ _ _ Hnd H)
    as [[-> _]|(k & u & u' & Hk & -> & Hc)]; [exact Hall|].
  apply Forall_save; [exact Hall|]. intros k0. cbn [snd].
  pose proof (proj1 (Forall_forall _ _) Hall _ (findById_In _ _ _ Hk)) as Hu.
  cbn [snd] in Hu. unfold trials_nonneg in *.
  destruct Hc as [(_ & _ & _ & _ & -> & _)|[(_ & _ & _ & _ & -> & _)|
    [(_ & _ & _ & _ & -> & _)|[(_ & _ & Hex & -> & _)|(_ & -> & _)]]]];
    auto.
  - apply spent_nonneg.
  - now apply consumed_nonneg.
Qed.

(** X19.  When every stored [trialsLeft] is a number that is not negative,
    this still holds after any sequence of requests: neither [/optimize]
    nor [/consume-trial] saves a negative number of trials. *)
Theorem trials_never_negative (reqs : list request) (st : State) :
  NoDup (map fst (users st)) ->
  Forall (fun ku => trials_nonneg (snd ku) = true) (users st) ->
  Forall (fun ku => trials_nonneg (snd ku) = true)
         (users (snd (serve reqs st))).
Proof.
  revert st. induction reqs as [|req reqs IH]; intros st Hnd Hall.
  - exact Hall.
  - rewrite serve_cons. cbn [snd].
    destruct (handle req st) as [r st'] eqn:H. cbn [snd]. apply IH.
    + now rewrite (handle_ids _ _ _ _ Hnd H).
    + exact (handle_nonneg _ _ _ _ Hnd H Hall).
Qed.

Lemma findOne_email (key uid : string) (user : User) (db : Users) :
  findOne key db = Some (uid, user) -> email user = key.
Proof.
  induction db as [|[k u] db IH]; simpl; [discriminate|].
  destruct (String.eqb (email u) key) eqn:E; [|exact IH].
  intro H. injection H as -> ->. now apply String.eqb_eq.
Qed.

(** X20.  A login answered 'Logged in' had an email, a password that
    [bcrypt.compare] accepted and a user found by the email that was not
    locked; it opens a session of that user.  [requireAuth] lets a later
    request of this session pass as long as the session is held, with the
    trials and the lock of the user unchanged and its [lastIP] set; once the
    session has ended, and after [/auth/logout], it answers 401
    'Not authenticated'. *)
Theorem login_opens_session (key : option string)
  (hasPassword passwordOk : bool) (clock : Clock) (ip : option string)
  (st st' : State) :
  loginRoute key hasPassword passwordOk clock ip st = (LoggedIn, st') ->
  exists k uid user,
    key = Some k /\ findOne k (users st) = Some (uid, user) /\
    hasPassword = true /\ passwordOk = true /\
    lockedAt user (at_check clock) = None /\
    session st' = Some uid /\
    (forall later,
       (at_check clock <= at_auth later)%Z -> session_alive later = true ->
       exists user',
         requireAuth (at_auth later) (arrive later st') = Granted uid user' /\
         email user' = k /\ trialsLeft user' = trialsLeft user /\
         lockedUntil user' = lockedUntil user /\ lastIP user' = ip) /\
    (forall later,
       session_alive later = false ->
       requireAuth (at_auth later) (arrive later st')
       = Refused (Unauthorized "Not authenticated") (arrive later st')) /\
    (forall now,
       requireAuth now (snd (logoutRoute st'))
       = Refused (Unauthorized "Not authenticated") (snd (logoutRoute st'))).
Proof.
  unfold loginRoute. cbv zeta. rewrite arrive_users.
  destruct key as [k|]; [|discriminate].
  destruct hasPassword; [|discriminate]. cbn [negb].
  destruct (findOne k (users st)) as [[uid user]|] eqn:Hf; [|discriminate].
  destruct (lockedAt user (at_check clock)) eqn:Hl; [discriminate|].
  destruct passwordOk; [|discriminate]. cbn [negb].
  intro H. injection H as <-. exists k, uid, user.
  repeat split; auto.
  - intros later Hnow Ha. rewrite (arrive_alive _ _ Ha).
    assert (Hl' : forall u', lockedUntil u' = lockedUntil user ->
                             lockedAt u' (at_auth later) = None).
    { intros u' Hu'. unfold lockedAt in *. rewrite Hu'.
      destruct (lockedUntil user) as [t|]; [|reflexivity].
      destruct (Z.gtb_spec t (at_check clock)); [discriminate|].
      destruct (Z.gtb_spec t (at_auth later)); [lia|reflexivity]. }
    eexists. split.
    + unfold requireAuth. cbn [session users].
      destruct (findOne_findById _ _ _ _ Hf) as [u0 Hu0].
      rewrite (findById_save_same _ _ _ _ Hu0).
      rewrite Hl' by reflexivity. reflexivity.
    + cbn [email trialsLeft lockedUntil lastIP].
      rewrite (findOne_email _ _ _ _ Hf). auto.
  - intros later Ha. rewrite (arrive_ended _ _ Ha). reflexivity.
Qed.

Lemma sample_body_feasible :
  exists result,
    App.optimize 1000 (Arr [coalA; coalB]) = App.Status200 result.
Proof.
  destruct (optimize_cases 1000 [coalA; coalB])
    as (_ & _ & H200 & _); [discriminate|].
  destruct H200 as (selection & _ & H);
    [discriminate|apply Nat.leb_le; vm_compute; reflexivity|].
  eexists. exact H.
Qed.

Lemma optimizeRoute_result (clock : Clock) (ip : option string)
  (body : blends_field) (st : State) (uid : string) (user : User)
  (result : App.Result) :
  session_alive clock = true ->
  session st = Some uid -> findById uid (users st) = Some user ->
  lockedUntil user = None -> exhausted user = false ->
  App.optimize (maxArguments clock) body = App.Status200 result ->
  fst (optimizeRoute clock ip body st) = Optimize (App.Status200 result).
Proof.
  intros Ha Hs Hf Hl Hex Hb. unfold optimizeRoute. cbv zeta.
  rewrite (arrive_alive _ _ Ha). unfold requireAuth, optimizeHandler.
  unfold exhausted in Hex.
  rewrite Hs, Hf, !(not_locked _ _ Hl), Hex, Hb. reflexivity.
Qed.

Lemma sample_ids : NoDup (map fst (users sample_state)).
Proof.
  repeat constructor; simpl; intuition discriminate.
Qed.

Lemma result_costs_one_trial_witness :
  let st' :=
    snd (optimizeRoute sample_clock None (Arr [coalA; coalB]) sample_state) in
  exists user',
    findById "u1" (users st') = Some user' /\
    trialsLeft user' =~ $1 /\ lockedUntil user' = None.
Proof.
  destruct (result_costs_one_trial sample_clock None (Arr [coalA; coalB])
              sample_state
              (snd (optimizeRoute sample_clock None (Arr [coalA; coalB])
                                  sample_state))
              (fst (optimizeRoute sample_clock None (Arr [coalA; coalB])
                                  sample_state))
              "u1" alice 2 eq_refl eq_refl)
    as (_ & _ & (user' & H1 & H2 & H3 & _) & _).
  - simpl. reflexivity.
  - apply surjective_pairing.
  - destruct sample_body_feasible as [result Hr].
    rewrite (optimizeRoute_result sample_clock None (Arr [coalA; coalB])
               sample_state "u1" alice result
               eq_refl eq_refl eq_refl eq_refl eq_refl Hr).
    reflexivity.
  - exists user'. auto.
Defined.

Lemma no_result_no_charge_witness :
  users (snd (optimizeRoute sample_clock (Some "10.0.0.1"%string) Falsy
                            sample_state))
  = users sample_state.
Proof.
  destruct (no_result_no_charge sample_clock (Some "10.0.0.1"%string) Falsy
              sample_state
              (snd (optimizeRoute sample_clock (Some "10.0.0.1"%string) Falsy
                                  sample_state))
              (fst (optimizeRoute sample_clock (Some "10.0.0.1"%string) Falsy
                                  sample_state)))
    as [H _].
  - apply surjective_pairing.
  - reflexivity.
  - apply H. discriminate.
Defined.

Lemma results_bounded_by_trials_witness :
  (results_served "u1"
     (fst (serve [PostOptimize sample_clock None (Arr [coalA; coalB]);
                  PostConsumeTrial sample_clock;
                  PostOptimize sample_clock None (Arr [coalA; coalB]);
                  PostLogin (Some "alice@example.com"%string) true true
                            sample_clock None;
                  PostOptimize sample_clock None (Arr [coalA; coalB])]
                 sample_state))
   <= 2)%nat.
Proof.
  apply (results_bounded_by_trials _ sample_state "u1" alice 2).
  - exact sample_ids.
  - reflexivity.
  - reflexivity.
Defined.

Lemma trials_are_honoured_witness :
  results_served "u1"
    (fst (serve [PostOptimize sample_clock None (Arr [coalA; coalB]);
                 PostOptimize sample_clock None (Arr [coalA; coalB])]
                sample_state))
  = 2%nat.
Proof.
  destruct sample_body_feasible as [result Hr].
  change 2%nat
    with (length [PostOptimize sample_clock None (Arr [coalA; coalB]);
                  PostOptimize sample_clock None (Arr [coalA; coalB])]).
  apply (trials_are_honoured _ sample_state "u1" alice 2).
  - reflexivity.
  - reflexivity.
  - simpl. reflexivity.
  - reflexivity.
  - repeat constructor;
      exists sample_clock, None, (Arr [coalA; coalB]), result; auto.
  - simpl. lia.
Defined.

Lemma locked_only_when_exhausted_witness :
  let st := {| users := users sample_state; session := Some "u2"%string |} in
  let bob' :=
    {| email := email bob; trialsLeft := trialsLeft bob;
       lockedUntil := Some (at_lock sample_clock + day)%Z;
       lastIP := lastIP bob; ipHistory := ipHistory bob |} in
  session st = Some "u2"%string /\ exhausted bob' = true /\
  (is_result Exhausted = false ->
   session (snd (handle (PostOptimize sample_clock None Falsy) st)) = None) /\
  exists clock,
    clock_of (PostOptimize sample_clock None Falsy) = Some clock /\
    lockedUntil bob' = Some (at_lock clock + day)%Z.
Proof.
  apply (locked_only_when_exhausted (PostOptimize sample_clock None Falsy)
           {| users := users sample_state; session := Some "u2"%string |}
           _ Exhausted "u2" bob).
  - exact sample_ids.
  - reflexivity.
  - reflexivity.
  - reflexivity.
  - discriminate.
Defined.

Lemma trials_never_negative_witness :
  Forall (fun ku => trials_nonneg (snd ku) = true)
         (users (snd (serve [PostConsumeTrial sample_clock;
                             PostConsumeTrial sample_clock;
                             PostConsumeTrial sample_clock]
                            sample_state))).
Proof.
  apply (trials_never_negative _ sample_state).
  - exact sample_ids.
  - repeat constructor.
Defined.

(** A later request of the session, which is still held. *)
Lemma login_opens_session_witness :
  let later :=
    {| at_auth := 2000; at_check := 2001;
       at_lock := 2002; at_history := 2003;
       session_alive := true; maxArguments := 1000 |} in
  exists user',
    requireAuth (at_auth later)
      (arrive later
         (snd (loginRoute (Some "alice@example.com"%string) true true
                          sample_clock None
                          {| users := users sample_state;
                             session := None |})))
    = Granted "u1" user'.
Proof.
  intro later.
  destruct (login_opens_session (Some "alice@example.com"%string) true true
              sample_clock None
              {| users := users sample_state; session := None |}
              _ eq_refl)
    as (k & uid & user & Hk & Hf & _ & _ & _ & _ & Hreq & _).
  injection Hk as <-. vm_compute in Hf. injection Hf as <- <-.
  destruct (Hreq later) as (user' & H & _);
    [vm_compute; discriminate|reflexivity|].
  exists user'. exact H.
Defined.
